(** * Custom_Voice_TTS: the corpus recording tool [job01_record_voice.py]

    A shallow embedding of the recording script and the properties of its
    accuracy scorer, its progress checkpoint and its per-sentence loop.

    Modelling conventions.
    - A Python [str] is a list of Unicode code points ([pystr]); [len] is the
      length of that list.
    - A Python [int] is a [Z].
    - A Python [float] is rendered as an exact rational ([Q]).  The scorer
      divides two small non-negative integers once, subtracts from one and
      scales by a hundred; the properties below are statements about that
      quotient and are read over the rationals.  [accuracy_binary64] is the
      same arithmetic on IEEE doubles, evaluated for every distance and
      length up to 200 as a cross-check.
    - Exceptions are values of [exn]; a computation that may raise returns
      into [M], a state-and-error monad over the [world] (the checkpoint
      file, the recordings directory and the terminal).
    - The keyboard, the microphone, the recognition service, the audio
      player and the clock are the environment: their answers are inputs. *)

From Stdlib Require Import ZArith NArith QArith Qminmax List Bool Lia Lqa.
From Stdlib Require PrimFloat Uint63.
Import ListNotations.

(** ** Python values *)

Definition pystr := list N.

Fixpoint str_eqb (a b : pystr) : bool :=
  match a, b with
  | [], [] => true
  | x :: a', y :: b' => N.eqb x y && str_eqb a' b'
  | _, _ => false
  end.

(** Truth value of a string: [not s] holds exactly for the empty one. *)
Definition py_not (s : pystr) : bool :=
  match s with [] => true | _ :: _ => false end.

Definition py_len (s : pystr) : Z := Z.of_nat (length s).

Inductive exn :=
| ValueError
| IndexError
| KeyboardInterrupt
| PlaybackError.

(** ** The [Levenshtein] package

    [Levenshtein.distance] is a third-party function; it is taken by its
    contract, the classical recurrence on the two strings. *)

Module Levenshtein.

Definition min3 (a b c : nat) : nat := Nat.min a (Nat.min b c).

Definition subst_cost (x y : N) : nat := if N.eqb x y then 0%nat else 1%nat.

Fixpoint distance (a : pystr) : pystr -> nat :=
  match a with
  | [] => fun b => length b
  | x :: a' =>
      fix against (b : pystr) : nat :=
        match b with
        | [] => S (length a')
        | y :: b' =>
            min3 (S (distance a' b))
                 (S (against b'))
                 (subst_cost x y + distance a' b')
        end
  end.

(** The specification side: an alignment of [a] with [b] built from
    kept characters, substitutions, deletions and insertions, with each
    of the last three costing one. *)
Inductive edits : pystr -> pystr -> nat -> Prop :=
| edits_done : edits [] [] 0
| edits_keep x a b n : edits a b n -> edits (x :: a) (x :: b) n
| edits_substitute x y a b n : edits a b n -> edits (x :: a) (y :: b) (S n)
| edits_delete x a b n : edits a b n -> edits (x :: a) b (S n)
| edits_insert y a b n : edits a b n -> edits a (y :: b) (S n).

(** [d] is the edit distance: some alignment costs [d], none costs less. *)
Definition edit_distance (a b : pystr) (d : nat) : Prop :=
  edits a b d /\ forall n, edits a b n -> (d <= n)%nat.

End Levenshtein.

(** ** The accuracy scorer *)

(** [max(a, b)]: the first argument unless the second is greater. *)
Definition py_max (a b : Q) : Q := Qmax a b.

(** [calculate_accuracy], lines 90-99. *)
Definition calculate_accuracy (original transcribed : pystr) : Q :=
  if py_not transcribed then 0
  else
    let distance := Z.of_nat (Levenshtein.distance original transcribed) in
    let max_length := Z.max (py_len original) (py_len transcribed) in
    if (max_length =? 0)%Z then
      (if str_eqb original transcribed then 100 else 0)
    else
      let accuracy := (1 - inject_Z distance / inject_Z max_length) * 100 in
      py_max 0 accuracy.

(** The scorer's formula as the specification words it. *)
Definition accuracy_formula (d max_len : nat) : Q :=
  Qmax 0 ((1 - inject_Z (Z.of_nat d) / inject_Z (Z.of_nat max_len)) * 100).

(** The same arithmetic on binary64, the [float] of the interpreter. *)
Definition float_of_Z (z : Z) : PrimFloat.float :=
  PrimFloat.of_uint63 (Uint63.of_Z z).

Definition accuracy_binary64 (d max_len : nat) : PrimFloat.float :=
  let accuracy :=
    PrimFloat.mul
      (PrimFloat.sub (float_of_Z 1)
         (PrimFloat.div (float_of_Z (Z.of_nat d)) (float_of_Z (Z.of_nat max_len))))
      (float_of_Z 100) in
  if PrimFloat.ltb (float_of_Z 0) accuracy then accuracy else float_of_Z 0.

(** For every length from 1 to [n] and every distance up to it: the
    double lies in [0, 100], is 100 at distance 0 and 0 at full distance. *)
Definition binary64_check (n : nat) : bool :=
  forallb
    (fun m =>
       forallb
         (fun d =>
            PrimFloat.leb (float_of_Z 0) (accuracy_binary64 d m)
            && PrimFloat.leb (accuracy_binary64 d m) (float_of_Z 100))
         (seq 0 (S m))
       && PrimFloat.eqb (accuracy_binary64 0 m) (float_of_Z 100)
       && PrimFloat.eqb (accuracy_binary64 m m) (float_of_Z 0))
    (seq 1 n).

(** ** Text and integers of the runtime *)

(** The characters [str.strip] removes: those for which [str.isspace]
    holds. *)
Definition is_space (c : N) : bool :=
  (((9 <=? c) && (c <=? 13)) || ((28 <=? c) && (c <=? 32))
   || (c =? 133) || (c =? 160) || (c =? 5760)
   || ((8192 <=? c) && (c <=? 8202))
   || (c =? 8232) || (c =? 8233) || (c =? 8239) || (c =? 8287)
   || (c =? 12288))%N.

Fixpoint lstrip (s : pystr) : pystr :=
  match s with
  | c :: r => if is_space c then lstrip r else s
  | [] => []
  end.

Definition rstrip (s : pystr) : pystr := rev (lstrip (rev s)).

Definition py_strip (s : pystr) : pystr := rstrip (lstrip s).

(** [str(n)] for a non-negative [n], least significant digit first into
    the accumulator. *)
Fixpoint digits_fuel (fuel : nat) (n : N) (acc : pystr) : pystr :=
  match fuel with
  | O => acc
  | S k =>
      let acc' := (48 + n mod 10)%N :: acc in
      if (n <? 10)%N then acc' else digits_fuel k (n / 10)%N acc'
  end.

Definition py_str_nat (n : N) : pystr :=
  digits_fuel (S (N.to_nat (N.log2 n))) n [].

Definition py_str (z : Z) : pystr :=
  if (z <? 0)%Z then 45%N :: py_str_nat (Z.to_N (- z)) else py_str_nat (Z.to_N z).

(** Indexing a list the way Python does: negative indices count from the
    end, anything outside raises [IndexError]. *)
Definition py_index {A : Type} (l : list A) (i : Z) : exn + A :=
  let n := Z.of_nat (length l) in
  let k := if (i <? 0)%Z then (n + i)%Z else i in
  if ((0 <=? k) && (k <? n))%Z then
    match nth_error l (Z.to_nat k) with
    | Some x => inr x
    | None => inl IndexError
    end
  else inl IndexError.

Definition is_digit (c : N) : Prop := (48 <= c <= 57)%N.

Definition digit_led (s : pystr) : Prop :=
  match s with
  | c :: _ => is_digit c
  | [] => False
  end.

(** The decimal digit table of plain ASCII, one instance of the runtime's
    table. *)
Definition ascii_decimal (c : N) : option N :=
  if ((48 <=? c) && (c <=? 57))%N then Some (c - 48)%N else None.

(** ** The world the script acts on *)

Definition timestamp := N.

(** [recordings/sentence_<number>_<stamp>.wav] *)
Record path := { sentence_no : Z; stamp : timestamp }.

Definition path_eqb (p q : path) : bool :=
  (sentence_no p =? sentence_no q)%Z && (stamp p =? stamp q)%N.

Definition chunk := list Z.
Definition audio := list Z.

Inductive recognition :=
| Recognized (text : pystr)
| UnknownValueError
| RequestError (detail : pystr).

Inductive output :=
| PressAndHold
| RecordingStarted
| RecordingStopped
| NotUnderstood
| RecognitionFailed (detail : pystr)
| SentenceHeader (number total : Z) (sentence : pystr)
| Transcribed (text : pystr)
| Accuracy (percent : Q)
| Options
| PlayError (e : exn)
| Exiting
| InvalidChoice
| AllRecorded
| Interrupted
| ErrorOccurred (e : exn).

Record world := {
  progress_file : option pystr;
  recordings : list (path * audio);
  stdout : list output
}.

(** ** Computations that act on the world and may raise *)

Definition M (A : Type) : Type := world -> world * (exn + A).

Definition ret {A} (a : A) : M A := fun w => (w, inr a).

Definition raise {A} (e : exn) : M A := fun w => (w, inl e).

Definition bind {A B} (m : M A) (k : A -> M B) : M B :=
  fun w =>
    match m w with
    | (w', inr a) => k a w'
    | (w', inl e) => (w', inl e)
    end.

Notation "x <- m ;; k" := (bind m (fun x => k))
  (at level 61, m at next level, right associativity).
Notation "m ;;; k" := (bind m (fun _ => k))
  (at level 61, right associativity).

(** [try: m  except <handled>: h] *)
Definition try_except {A} (m : M A) (handled : exn -> bool) (h : exn -> M A) : M A :=
  fun w =>
    match m w with
    | (w', inl e) => if handled e then h e w' else (w', inl e)
    | r => r
    end.

Definition lift {A} (r : exn + A) : M A := fun w => (w, r).

Definition print (o : output) : M unit :=
  fun w =>
    ({| progress_file := progress_file w;
        recordings := recordings w;
        stdout := stdout w ++ [o] |}, inr tt).

(** [except Exception] lets [KeyboardInterrupt] through. *)
Definition is_Exception (e : exn) : bool :=
  match e with KeyboardInterrupt => false | _ => true end.

Definition is_ValueError (e : exn) : bool :=
  match e with ValueError => true | _ => false end.

(** ** The script *)

Section Script.

(** The runtime's table of decimal digits ([int] accepts every Unicode
    decimal digit, not only ASCII's). *)
Variable to_decimal : N -> option N.

(** [load_sentences()]: the first column of the corpus file. *)
Variable sentences : list pystr.

(** [datetime.now()] as read when a sentence with the given index begins. *)
Variable now : Z -> timestamp.

(** Digits after the first one: single underscores may separate them. *)
Fixpoint digits_acc (a : N) (s : pystr) : option N :=
  match s with
  | [] => Some a
  | c :: r =>
      if (c =? 95)%N then
        match r with
        | d :: r' =>
            match to_decimal d with
            | Some v => digits_acc (10 * a + v)%N r'
            | None => None
            end
        | [] => None
        end
      else
        match to_decimal c with
        | Some v => digits_acc (10 * a + v)%N r
        | None => None
        end
  end.

Definition py_digits (s : pystr) : option N :=
  match s with
  | [] => None
  | c :: r =>
      match to_decimal c with
      | Some v => digits_acc v r
      | None => None
      end
  end.

(** [int(s)] on a string: surrounding whitespace, an optional sign, then
    decimal digits; anything else raises [ValueError]. *)
Definition py_int (s : pystr) : exn + Z :=
  let s := py_strip s in
  let signed :=
    match s with
    | c :: r =>
        if (c =? 43)%N then (false, r)
        else if (c =? 45)%N then (true, r)
        else (false, s)
    | [] => (false, s)
    end in
  match py_digits (snd signed) with
  | Some n => inr (if fst signed then (- Z.of_N n)%Z else Z.of_N n)
  | None => inl ValueError
  end.

(** [load_progress], lines 38-46.  The file is absent ([None]) or holds
    some text. *)
Definition load_progress : M Z :=
  fun w =>
    match progress_file w with
    | Some content =>
        try_except (lift (py_int (py_strip content))) is_ValueError
                   (fun _ => ret 0%Z) w
    | None => ret 0%Z w
    end.

(** [save_progress], lines 49-52. *)
Definition save_progress (index : Z) : M unit :=
  fun w =>
    ({| progress_file := Some (py_str index);
        recordings := recordings w;
        stdout := stdout w |}, inr tt).

(** [np.concatenate(arrays, axis=0)]: an empty list of arrays is refused
    with [ValueError]. *)
Definition np_concatenate (arrays : list chunk) : exn + audio :=
  match arrays with
  | [] => inl ValueError
  | _ :: _ => inr (concat arrays)
  end.

Definition wavio_write (filename : path) (data : audio) : M unit :=
  fun w =>
    ({| progress_file := progress_file w;
        recordings :=
          (filename, data)
            :: filter (fun e => negb (path_eqb (fst e) filename)) (recordings w);
        stdout := stdout w |}, inr tt).

Definition os_path_exists (filename : path) (w : world) : bool :=
  existsb (fun e => path_eqb (fst e) filename) (recordings w).

Definition os_remove (filename : path) : M unit :=
  fun w =>
    ({| progress_file := progress_file w;
        recordings :=
          filter (fun e => negb (path_eqb (fst e) filename)) (recordings w);
        stdout := stdout w |}, inr tt).

(** [record_audio], lines 55-70.  [held] lists the chunks read while the
    record key stayed pressed, one for each poll of [keyboard.is_pressed]
    that found it down. *)
Definition record_audio (filename : path) (held : list chunk) : M path :=
  print PressAndHold ;;;
  print RecordingStarted ;;;
  let recording := fold_left (fun recording data => recording ++ [data]) held [] in
  print RecordingStopped ;;;
  recording <- lift (np_concatenate recording) ;;
  wavio_write filename recording ;;;
  ret filename.

(** [speech_to_text], lines 73-87; [heard] is the answer of
    [recognize_google]. *)
Definition speech_to_text (heard : recognition) : M pystr :=
  match heard with
  | Recognized text => ret text
  | UnknownValueError => print NotUnderstood ;;; ret []
  | RequestError e => print (RecognitionFailed e) ;;; ret []
  end.

Definition playsound (fails : bool) : M unit :=
  if fails then raise PlaybackError else ret tt.

(** What the environment supplies for one pass of the inner loop. *)
Record take := {
  held : list chunk;
  heard : recognition;
  playback_fails : bool;
  typed : pystr
}.

(** What happens next in a session: the operator makes a take, or
    interrupts the program (taken here between two passes). *)
Inductive event :=
| Take (t : take)
| CtrlC.

(** How one pass of the inner [while True] ends. *)
Inductive signal := Continue | Break | Return.

Definition total_sentences : Z := Z.of_nat (length sentences).

(** The body of the inner loop, lines 123-161. *)
Definition attempt (current_index : Z) (sentence : pystr) (audio_file : path)
  (t : take) : M signal :=
  record_audio audio_file (held t) ;;;
  transcribed_text <- speech_to_text (heard t) ;;
  let accuracy := calculate_accuracy sentence transcribed_text in
  print (Transcribed transcribed_text) ;;;
  print (Accuracy accuracy) ;;;
  print Options ;;;
  let choice := py_strip (typed t) in
  if str_eqb choice [49%N] then
    try_except (playsound (playback_fails t)) is_Exception
               (fun e => print (PlayError e)) ;;;
    ret Continue
  else if str_eqb choice [50%N] then
    (fun w => if os_path_exists audio_file w then os_remove audio_file w
              else ret tt w) ;;;
    ret Continue
  else if str_eqb choice [51%N] then
    save_progress (current_index + 1) ;;;
    ret Break
  else if str_eqb choice [52%N] then
    save_progress current_index ;;;
    print Exiting ;;;
    ret Return
  else
    print InvalidChoice ;;;
    ret Continue.

Inductive outcome :=
| Completed
| Exited
| Crashed (e : exn).

(** Where [main] stands between two passes: inside the inner loop for one
    sentence, or gone. *)
Inductive config :=
| Running (current_index : Z) (sentence : pystr) (audio_file : path) (w : world)
| Halted (o : outcome) (w : world).

(** The guard on [current_index] (lines 108-110 on entry, 163-165 after a
    sentence) and the head of the outer loop (lines 114-120). *)
Definition enter (current_index : Z) (w : world) : config :=
  if (current_index >=? total_sentences)%Z then
    Halted Completed (fst (print AllRecorded w))
  else
    match py_index sentences current_index with
    | inl e => Halted (Crashed e) w
    | inr sentence =>
        Running current_index sentence
          {| sentence_no := current_index + 1; stamp := now current_index |}
          (fst (print (SentenceHeader (current_index + 1) total_sentences sentence) w))
    end.

(** [main] up to its first pass, lines 104-120. *)
Definition start (w : world) : config :=
  match load_progress w with
  | (w', inr current_index) => enter current_index w'
  | (w', inl e) => Halted (Crashed e) w'
  end.

Definition step (c : config) (e : event) : config :=
  match c with
  | Halted _ _ => c
  | Running current_index sentence audio_file w =>
      match e with
      | CtrlC => Halted (Crashed KeyboardInterrupt) w
      | Take t =>
          match attempt current_index sentence audio_file t w with
          | (w', inl e) => Halted (Crashed e) w'
          | (w', inr Continue) => Running current_index sentence audio_file w'
          | (w', inr Break) => enter (current_index + 1) w'
          | (w', inr Return) => Halted Exited w'
          end
      end
  end.

(** [main], lines 102-165, run against the events of a session. *)
Definition main (events : list event) (w : world) : config :=
  fold_left step events (start w).

(** The [__main__] guard, lines 168-174: what is on disk and on the terminal once the
    process is over (or blocked on the operator). *)
Definition script (events : list event) (w : world) : world :=
  match main events w with
  | Halted (Crashed KeyboardInterrupt) w' => fst (print Interrupted w')
  | Halted (Crashed e) w' => fst (print (ErrorOccurred e) w')
  | Halted _ w' => w'
  | Running _ _ _ w' => w'
  end.

Definition world_of (c : config) : world :=
  match c with
  | Running _ _ _ w => w
  | Halted _ w => w
  end.

(** The checkpoint as the next session would read it. *)
Definition checkpoint (w : world) : Z :=
  match snd (load_progress w) with
  | inr index => index
  | inl _ => 0%Z
  end.

(** The operator's four decisions. *)
Inductive decision := Play | Redo | Advance | Quit | Invalid.

Definition decision_of (t : take) : decision :=
  let choice := py_strip (typed t) in
  if str_eqb choice [49%N] then Play
  else if str_eqb choice [50%N] then Redo
  else if str_eqb choice [51%N] then Advance
  else if str_eqb choice [52%N] then Quit
  else Invalid.

(** A character that can be no part of a decimal integer: neither a
    digit, nor a sign, nor the underscore that may separate digits. *)
Definition non_numeric (c : N) : Prop :=
  to_decimal c = None /\ c <> 95%N /\ c <> 43%N /\ c <> 45%N.

(** What [speech_to_text] tells the operator about a failed recognition. *)
Definition failure_notice (heard : recognition) : list output :=
  match heard with
  | Recognized _ => []
  | UnknownValueError => [NotUnderstood]
  | RequestError detail => [RecognitionFailed detail]
  end.

(** Between two passes the index in hand is the one on disk, and its
    sentence is still to be recorded. *)
Definition coherent (c : config) : Prop :=
  match c with
  | Running current_index _ _ w =>
      checkpoint w = current_index /\ (current_index < total_sentences)%Z
  | Halted _ _ => True
  end.

End Script.

(** ** The corpus and the recordings directory *)

(** [load_sentences], lines 27-35, on the rows [csv.reader] yields for the
    corpus file (a blank line yields the empty row). *)
Definition load_sentences (rows : list (list pystr)) : list pystr :=
  fold_left
    (fun sentences row =>
       match row with
       | [] => sentences
       | first :: _ => sentences ++ [first]
       end)
    rows [].

(** What the recordings directory holds under a name, if anything. *)
Definition recording_at (filename : path) (w : world) : option audio :=
  option_map snd (find (fun e => path_eqb (fst e) filename) (recordings w)).

(** The file of the sentence in hand carries its 1-based number, as line
    120 names it. *)
Definition named_for_index (c : config) : Prop :=
  match c with
  | Running current_index _ audio_file _ =>
      sentence_no audio_file = (current_index + 1)%Z
  | Halted _ _ => True
  end.

(** A take that is recorded and then accepted. *)
Definition accepted (t : take) : Prop :=
  held t <> [] /\ decision_of t = Advance.

(** The same take with whitespace typed around the choice. *)
Definition padded (before after : pystr) (t : take) : take :=
  {| held := held t;
     heard := heard t;
     playback_fails := playback_fails t;
     typed := before ++ typed t ++ after |}.

Definition blank (s : pystr) : Prop := Forall (fun c => is_space c = true) s.

(** ** Sample data

    The test vector of the specification and a small corpus to run the
    session on. *)

(** "안녕하세요" *)
Definition annyeonghaseyo : pystr := [50504; 45397; 54616; 49464; 50836]%N.

(** "안녕하십니까" *)
Definition annyeonghasimnikka : pystr :=
  [50504; 45397; 54616; 49901; 45768; 44620]%N.

Definition corpus3 : list pystr :=
  [annyeonghaseyo; annyeonghasimnikka; [44256; 47560; 50892]%N].

Definition clock (i : Z) : timestamp := (20240101120000 + Z.to_N i)%N.

Definition fresh_world : world :=
  {| progress_file := None; recordings := []; stdout := [] |}.

(** A checkpoint file holding the text [7]. *)
Definition stale_world : world :=
  {| progress_file := Some [55%N]; recordings := []; stdout := [] |}.

(** A checkpoint file holding the text [abc]. *)
Definition corrupt_world : world :=
  {| progress_file := Some [97; 98; 99]%N; recordings := []; stdout := [] |}.

(** A take of one chunk, recognised as [text], closed by typing [key]. *)
Definition take_of (text : pystr) (key : N) : take :=
  {| held := [[12; -7; 3]%Z];
     heard := Recognized text;
     playback_fails := false;
     typed := [key; 10%N] |}.

(** The record key let go at once. *)
Definition tap : take :=
  {| held := [];
     heard := UnknownValueError;
     playback_fails := false;
     typed := [51%N] |}.

(** A take nobody could make out, which the operator asks to redo. *)
Definition mumble : take :=
  {| held := [[0; 0]%Z];
     heard := UnknownValueError;
     playback_fails := false;
     typed := [50%N] |}.

(** A session to resume: the checkpoint file holds [1] and the take
    accepted for sentence 1 is on disk. *)
Definition resumed_world : world :=
  {| progress_file := Some [49%N];
     recordings := [({| sentence_no := 1; stamp := 5%N |}, [1; 2; 3]%Z)];
     stdout := [] |}.

(** Checkpoint files holding [ 2] and a newline, [-1], and [-9]. *)
Definition padded_world : world :=
  {| progress_file := Some [32; 50; 10]%N; recordings := []; stdout := [] |}.

Definition wrapping_world : world :=
  {| progress_file := Some [45; 49]%N; recordings := []; stdout := [] |}.

Definition lost_world : world :=
  {| progress_file := Some [45; 57]%N; recordings := []; stdout := [] |}.

(** * Properties *)

(** ** The edit distance *)

Module LevenshteinFacts.
Import Levenshtein.

Lemma distance_nil_l (b : pystr) : distance [] b = length b.
Proof. reflexivity. Qed.

Lemma distance_nil_r (a : pystr) : distance a [] = length a.
Proof. destruct a; reflexivity. Qed.

Lemma distance_cons (x y : N) (a b : pystr) :
  distance (x :: a) (y :: b) =
  min3 (S (distance a (y :: b))) (S (distance (x :: a) b))
       (subst_cost x y + distance a b).
Proof. reflexivity. Qed.

Lemma subst_cost_same (x : N) : subst_cost x x = 0%nat.
Proof. unfold subst_cost. now rewrite N.eqb_refl. Qed.

Lemma subst_cost_le (x y : N) : (subst_cost x y <= 1)%nat.
Proof. unfold subst_cost. destruct (x =? y)%N; lia. Qed.

Lemma edits_from_nil (b : pystr) : edits [] b (length b).
Proof.
  induction b as [|y b IH]; simpl.
  - constructor.
  - now apply edits_insert.
Qed.

Lemma edits_to_nil (a : pystr) : edits a [] (length a).
Proof.
  induction a as [|x a IH]; simpl.
  - constructor.
  - now apply edits_delete.
Qed.

(** Some alignment has the cost the recurrence computes. *)
Lemma distance_attained (a b : pystr) : edits a b (distance a b).
Proof.
  revert b. induction a as [|x a IHa]; intro b.
  - apply edits_from_nil.
  - induction b as [|y b IHb].
    + rewrite distance_nil_r. apply edits_to_nil.
    + rewrite distance_cons. unfold min3.
      destruct (Nat.min_spec (S (distance (x :: a) b))
                             (subst_cost x y + distance a b)) as [[_ E2]|[_ E2]];
        rewrite E2; clear E2;
        match goal with
        | |- edits _ _ (Nat.min ?p ?q) =>
            destruct (Nat.min_spec p q) as [[_ E1]|[_ E1]]; rewrite E1; clear E1
        end.
      * apply edits_delete, IHa.
      * now apply edits_insert.
      * apply edits_delete, IHa.
      * unfold subst_cost. destruct (N.eqb_spec x y) as [->|_]; simpl.
        -- apply edits_keep, IHa.
        -- apply edits_substitute, IHa.
Qed.

(** No alignment is cheaper. *)
Lemma distance_least (a b : pystr) (n : nat) :
  edits a b n -> (distance a b <= n)%nat.
Proof.
  induction 1 as [|x a b n _ IH|x y a b n _ IH|x a b n _ IH|y a b n _ IH].
  - simpl. lia.
  - rewrite distance_cons, subst_cost_same. unfold min3. lia.
  - rewrite distance_cons. pose proof (subst_cost_le x y). unfold min3. lia.
  - destruct b as [|y b].
    + rewrite distance_nil_r in *. simpl. lia.
    + rewrite distance_cons. unfold min3. lia.
  - destruct a as [|x a].
    + rewrite distance_nil_l in *. simpl. lia.
    + rewrite distance_cons. unfold min3. lia.
Qed.

Lemma distance_is_edit_distance (a b : pystr) :
  edit_distance a b (distance a b).
Proof.
  split.
  - apply distance_attained.
  - intros n. apply distance_least.
Qed.

Lemma edit_distance_unique (a b : pystr) (d d' : nat) :
  edit_distance a b d -> edit_distance a b d' -> d = d'.
Proof.
  intros [Hd Ld] [Hd' Ld'].
  apply Nat.le_antisymm; auto.
Qed.

Lemma edits_sym (a b : pystr) (n : nat) : edits a b n -> edits b a n.
Proof. induction 1; now constructor. Qed.

Lemma distance_sym (a b : pystr) : distance a b = distance b a.
Proof.
  apply Nat.le_antisymm; apply distance_least, edits_sym, distance_attained.
Qed.

Lemma distance_same (s : pystr) : distance s s = 0%nat.
Proof.
  induction s as [|x s IH].
  - reflexivity.
  - pose proof (distance_least _ _ _ (edits_keep x _ _ _ (distance_attained s s))). lia.
Qed.

Lemma distance_le_max (a b : pystr) :
  (distance a b <= Nat.max (length a) (length b))%nat.
Proof.
  revert b. induction a as [|x a IHa]; intros [|y b].
  - simpl. lia.
  - simpl. lia.
  - rewrite distance_nil_r. lia.
  - rewrite distance_cons.
    pose proof (IHa b). pose proof (subst_cost_le x y).
    unfold min3. simpl length. lia.
Qed.

End LevenshteinFacts.

(** ** The accuracy scorer *)

Lemma py_len_cons (c : N) (s : pystr) : py_len (c :: s) = (py_len s + 1)%Z.
Proof. unfold py_len. simpl length. lia. Qed.

Lemma py_len_nonneg (s : pystr) : (0 <= py_len s)%Z.
Proof. unfold py_len. lia. Qed.

Lemma str_eqb_refl (s : pystr) : str_eqb s s = true.
Proof.
  induction s as [|c s IH]; simpl.
  - reflexivity.
  - now rewrite N.eqb_refl, IH.
Qed.

(** With a transcription in hand the scorer is the normalised distance. *)
Lemma calculate_accuracy_heard (original transcribed : pystr) :
  transcribed <> [] ->
  calculate_accuracy original transcribed =
  accuracy_formula (Levenshtein.distance original transcribed)
                   (Nat.max (length original) (length transcribed)).
Proof.
  destruct transcribed as [|c t]; [congruence|intros _].
  unfold calculate_accuracy, accuracy_formula, py_max. simpl py_not. cbv zeta.
  pose proof (py_len_nonneg original). pose proof (py_len_nonneg t).
  rewrite (py_len_cons c t).
  destruct (Z.eqb_spec (Z.max (py_len original) (py_len t + 1)) 0) as [E|_]; [lia|].
  rewrite <- (py_len_cons c t). unfold py_len. now rewrite Nat2Z.inj_max.
Qed.

Lemma calculate_accuracy_silent (original : pystr) :
  calculate_accuracy original [] = 0.
Proof. reflexivity. Qed.

(** The quotient of the formula lies between nought and one. *)
Lemma ratio_bounds (d m : nat) :
  (d <= m)%nat -> (0 < m)%nat ->
  0 <= inject_Z (Z.of_nat d) / inject_Z (Z.of_nat m) <= 1.
Proof.
  intros Hd Hm.
  assert (Hpos : 0 < inject_Z (Z.of_nat m)).
  { change 0 with (inject_Z 0). rewrite <- Zlt_Qlt. lia. }
  split.
  - apply Qle_shift_div_l; [exact Hpos|].
    rewrite Qmult_0_l. change 0 with (inject_Z 0). rewrite <- Zle_Qle. lia.
  - apply Qle_shift_div_r; [exact Hpos|].
    rewrite Qmult_1_l. rewrite <- Zle_Qle. lia.
Qed.

Lemma accuracy_formula_range (d m : nat) :
  (d <= m)%nat -> (0 < m)%nat -> 0 <= accuracy_formula d m <= 100.
Proof.
  intros Hd Hm. unfold accuracy_formula.
  pose proof (ratio_bounds d m Hd Hm) as [Hlo Hhi].
  set (q := inject_Z (Z.of_nat d) / inject_Z (Z.of_nat m)) in *.
  split.
  - apply Q.le_max_l.
  - apply Q.max_lub; lra.
Qed.

Lemma accuracy_formula_exact (m : nat) :
  (0 < m)%nat -> accuracy_formula 0 m == 100.
Proof.
  intros Hm. unfold accuracy_formula.
  assert (E : (1 - inject_Z (Z.of_nat 0) / inject_Z (Z.of_nat m)) * 100 == 100).
  { simpl Z.of_nat. unfold Qdiv. change (inject_Z 0) with 0. rewrite Qmult_0_l. lra. }
  rewrite Q.max_r; [exact E|]. rewrite E. lra.
Qed.

(** When every character had to be edited the floor returns its own zero. *)
Lemma accuracy_formula_nothing_right (m : nat) :
  (0 < m)%nat -> accuracy_formula m m = 0.
Proof.
  intros Hm. unfold accuracy_formula.
  assert (E : (1 - inject_Z (Z.of_nat m) / inject_Z (Z.of_nat m)) * 100 <= 0).
  { assert (Hnz : ~ inject_Z (Z.of_nat m) == 0).
    { change 0 with (inject_Z 0). rewrite inject_Z_injective. lia. }
    unfold Qdiv. rewrite Qmult_inv_r by exact Hnz. lra. }
  unfold Qmax, GenericMinMax.gmax.
  rewrite Qle_alt in E.
  destruct (0 ?= (1 - inject_Z (Z.of_nat m) / inject_Z (Z.of_nat m)) * 100) eqn:C;
    try reflexivity.
  exfalso. apply E. now rewrite <- Qgt_alt, Qlt_alt.
Qed.

(** On doubles, for every length up to 200: the score lies in [0, 100],
    is exactly 100 at distance 0 and exactly 0 at full distance; the test
    vector (distance 3, length 6) scores exactly 50. *)
Example binary64_cross_check :
  binary64_check 200 = true
  /\ PrimFloat.eqb (accuracy_binary64 3 6) (float_of_Z 50) = true.
Proof. split; vm_compute; reflexivity. Qed.

(** C1: the scorer does not return 100.0 for two empty strings.  The test
    for an empty transcription comes first and answers 0.0, the same answer
    as for an empty transcription of a non-empty reference; the branch for
    [max_length == 0] that would return 100.0 is never reached. *)
Theorem calculate_accuracy_both_empty :
  calculate_accuracy [] [] = 0
  /\ ~ calculate_accuracy [] [] == 100
  /\ forall reference, calculate_accuracy reference [] = calculate_accuracy [] [].
Proof.
  split; [reflexivity|split].
  - simpl. intro H. discriminate H.
  - intros reference. reflexivity.
Qed.

(** C3: for a non-empty hypothesis the scorer returns
    [(1 - d / max_len) * 100] floored at zero, with [d] the unit-cost edit
    distance of the two strings and [max_len] the longer of the two
    lengths; and for every pair of strings the score lies in [0, 100]. *)
Theorem calculate_accuracy_formula_and_range (reference hypothesis : pystr) :
  (hypothesis <> [] ->
   exists d,
     Levenshtein.edit_distance reference hypothesis d
     /\ calculate_accuracy reference hypothesis =
        accuracy_formula d (Nat.max (length reference) (length hypothesis)))
  /\ 0 <= calculate_accuracy reference hypothesis <= 100.
Proof.
  split.
  - intros Hne. exists (Levenshtein.distance reference hypothesis). split.
    + apply LevenshteinFacts.distance_is_edit_distance.
    + now apply calculate_accuracy_heard.
  - destruct hypothesis as [|c t].
    + rewrite calculate_accuracy_silent. lra.
    + rewrite calculate_accuracy_heard by congruence.
      apply accuracy_formula_range.
      * apply LevenshteinFacts.distance_le_max.
      * simpl length. lia.
Qed.

(** C4: a non-empty string scored against itself gives 100; the empty
    string scored against itself gives 0, by the early return of C1. *)
Theorem calculate_accuracy_identity :
  (forall s, s <> [] -> calculate_accuracy s s == 100)
  /\ calculate_accuracy [] [] == 0.
Proof.
  split.
  - intros s Hne. rewrite calculate_accuracy_heard by exact Hne.
    rewrite LevenshteinFacts.distance_same, Nat.max_id.
    apply accuracy_formula_exact. destruct s; [congruence|simpl; lia].
  - reflexivity.
Qed.

(** C10: the scorer is symmetric in its two arguments. *)
Theorem calculate_accuracy_symmetric (a b : pystr) :
  calculate_accuracy a b = calculate_accuracy b a.
Proof.
  destruct a as [|x a], b as [|y b].
  - reflexivity.
  - rewrite calculate_accuracy_silent, calculate_accuracy_heard by congruence.
    rewrite LevenshteinFacts.distance_nil_l.
    change (Nat.max (length (@nil N)) (length (y :: b))) with (length (y :: b)).
    apply accuracy_formula_nothing_right. simpl. lia.
  - rewrite calculate_accuracy_silent, calculate_accuracy_heard by congruence.
    rewrite LevenshteinFacts.distance_nil_l.
    change (Nat.max (length (@nil N)) (length (x :: a))) with (length (x :: a)).
    symmetry. apply accuracy_formula_nothing_right. simpl. lia.
  - rewrite !calculate_accuracy_heard by congruence.
    now rewrite LevenshteinFacts.distance_sym, Nat.max_comm.
Qed.

(** *** More on the scorer *)


Lemma edits_free (a b : pystr) (n : nat) :
  Levenshtein.edits a b n -> n = 0%nat -> a = b.
Proof.
  induction 1 as [|x a b n _ IH| | |]; intros Hn; try discriminate.
  - reflexivity.
  - now rewrite IH.
Qed.

Lemma distance_zero (a b : pystr) : Levenshtein.distance a b = 0%nat -> a = b.
Proof.
  intros H. apply (edits_free a b (Levenshtein.distance a b)); [|exact H].
  apply LevenshteinFacts.distance_attained.
Qed.


Lemma accuracy_formula_closed (d m : nat) :
  (d <= m)%nat -> (0 < m)%nat ->
  accuracy_formula d m ==
  inject_Z (100 * Z.of_nat (m - d)) / inject_Z (Z.of_nat m).
Proof.
  intros Hd Hm. unfold accuracy_formula.
  pose proof (ratio_bounds d m Hd Hm) as [Hlo Hhi].
  assert (Hnz : ~ inject_Z (Z.of_nat m) == 0).
  { change 0 with (inject_Z 0). rewrite inject_Z_injective. lia. }
  rewrite Q.max_r.
  - rewrite Nat2Z.inj_sub by exact Hd.
    rewrite inject_Z_mult. unfold Z.sub. rewrite inject_Z_plus, inject_Z_opp.
    change (inject_Z 100) with 100. field. exact Hnz.
  - set (q := inject_Z (Z.of_nat d) / inject_Z (Z.of_nat m)) in *. lra.
Qed.


(** X1: with something transcribed, the score is 100 exactly when the
    transcription is the reference, character for character. *)
Theorem full_marks_iff_identical (original transcribed : pystr) :
  transcribed <> [] ->
  (calculate_accuracy original transcribed == 100 <-> original = transcribed).
Proof.
  intros Hne. split.
  - rewrite calculate_accuracy_heard by exact Hne.
    set (d := Levenshtein.distance original transcribed).
    set (m := Nat.max (length original) (length transcribed)).
    assert (Hm : (0 < m)%nat).
    { subst m. destruct transcribed; [congruence|simpl length; lia]. }
    assert (Hd : (d <= m)%nat) by apply LevenshteinFacts.distance_le_max.
    rewrite (accuracy_formula_closed d m Hd Hm). intros H.
    assert (Hnz : ~ inject_Z (Z.of_nat m) == 0).
    { change 0 with (inject_Z 0). rewrite inject_Z_injective. lia. }
    assert (E : inject_Z (100 * Z.of_nat (m - d)) == 100 * inject_Z (Z.of_nat m)).
    { rewrite <- H. field. exact Hnz. }
    change 100 with (inject_Z 100) in E. rewrite <- inject_Z_mult in E.
    rewrite inject_Z_injective in E.
    apply distance_zero. fold d. lia.
  - intros ->. rewrite calculate_accuracy_heard by exact Hne.
    rewrite LevenshteinFacts.distance_same, Nat.max_id.
    apply accuracy_formula_exact. destruct transcribed; [congruence|simpl; lia].
Qed.



(** ** Text and integers of the runtime *)

Lemma is_digit_not_space (c : N) : is_digit c -> is_space c = false.
Proof.
  unfold is_digit, is_space. intros H.
  repeat match goal with
         | |- context [(?a <=? ?b)%N] => destruct (N.leb_spec a b); try lia
         | |- context [(?a =? ?b)%N] => destruct (N.eqb_spec a b); try lia
         end; reflexivity.
Qed.

Lemma last_digit_char (n : N) : is_digit (48 + n mod 10).
Proof.
  unfold is_digit.
  assert (H : (n mod 10 < 10)%N) by (apply N.mod_upper_bound; discriminate).
  revert H. generalize (n mod 10)%N. intros r H. lia.
Qed.

Lemma lstrip_unspaced (s : pystr) :
  match s with c :: _ => is_space c = false | [] => True end -> lstrip s = s.
Proof. destruct s as [|c r]; simpl; [reflexivity|]. now intros ->. Qed.

(** Text with no whitespace in it is left alone by [strip]. *)
Lemma py_strip_unspaced (s : pystr) :
  Forall (fun c => is_space c = false) s -> py_strip s = s.
Proof.
  intros H. unfold py_strip, rstrip.
  rewrite (lstrip_unspaced s) by (destruct H; auto).
  rewrite lstrip_unspaced; [apply rev_involutive|].
  apply Forall_rev in H. destruct H; auto.
Qed.

Lemma digits_fuel_digits (fuel : nat) (n : N) (acc : pystr) :
  Forall is_digit acc -> Forall is_digit (digits_fuel fuel n acc).
Proof.
  revert n acc. induction fuel as [|k IH]; intros n acc H; simpl.
  - exact H.
  - pose proof (last_digit_char n) as Hd.
    destruct (n <? 10)%N; [|apply IH]; now constructor.
Qed.

Lemma digits_fuel_led (fuel : nat) (n : N) (acc : pystr) :
  (fuel = 0%nat -> digit_led acc) -> digit_led (digits_fuel fuel n acc).
Proof.
  revert n acc. induction fuel as [|k IH]; intros n acc H; simpl.
  - now apply H.
  - pose proof (last_digit_char n) as Hd.
    destruct (n <? 10)%N; [exact Hd|]. apply IH. intros _. exact Hd.
Qed.

Lemma py_str_nat_digits (n : N) : Forall is_digit (py_str_nat n).
Proof. apply digits_fuel_digits. constructor. Qed.

Lemma py_str_nat_led (n : N) : digit_led (py_str_nat n).
Proof. apply digits_fuel_led. discriminate. Qed.

Lemma py_str_unspaced (z : Z) : Forall (fun c => is_space c = false) (py_str z).
Proof.
  assert (H : forall n, Forall (fun c => is_space c = false) (py_str_nat n)).
  { intros n. eapply Forall_impl; [|apply py_str_nat_digits].
    apply is_digit_not_space. }
  unfold py_str. destruct (z <? 0)%Z; [constructor; [reflexivity|]|]; apply H.
Qed.

Lemma lstrip_idempotent (s : pystr) : lstrip (lstrip s) = lstrip s.
Proof.
  induction s as [|c r IH]; simpl; [reflexivity|].
  destruct (is_space c) eqn:E; [exact IH|]. simpl. now rewrite E.
Qed.

Lemma lstrip_keeps_last (l : pystr) (c : N) :
  is_space c = false -> lstrip (l ++ [c]) = lstrip l ++ [c].
Proof.
  intros Hc. induction l as [|x l IH]; simpl.
  - now rewrite Hc.
  - destruct (is_space x); [exact IH|reflexivity].
Qed.

Lemma lstrip_head (s : pystr) :
  match lstrip s with c :: _ => is_space c = false | [] => True end.
Proof.
  induction s as [|c r IH]; simpl; [exact I|].
  destruct (is_space c) eqn:E; [exact IH|exact E].
Qed.

(** [strip] has nothing left to do on its own result, so the stripping
    [int] does itself changes nothing after [.strip()]. *)
Lemma py_strip_idempotent (s : pystr) : py_strip (py_strip s) = py_strip s.
Proof.
  unfold py_strip.
  assert (Hr : forall t, rstrip (rstrip t) = rstrip t).
  { intros t. unfold rstrip. now rewrite rev_involutive, lstrip_idempotent. }
  assert (Hl : lstrip (rstrip (lstrip s)) = rstrip (lstrip s)).
  { pose proof (lstrip_head s) as Hh.
    destruct (lstrip s) as [|c r]; [reflexivity|].
    unfold rstrip. cbn [rev]. rewrite lstrip_keeps_last by exact Hh.
    rewrite rev_app_distr. cbn [rev app]. simpl lstrip. now rewrite Hh. }
  now rewrite Hl, Hr.
Qed.

(** *** Whitespace around a text *)

Lemma lstrip_blank_prefix (ws s : pystr) : blank ws -> lstrip (ws ++ s) = lstrip s.
Proof.
  induction 1 as [|c ws Hc _ IH]; simpl; [reflexivity|]. now rewrite Hc.
Qed.

Lemma lstrip_nil_blank (s : pystr) : lstrip s = [] -> blank s.
Proof.
  induction s as [|c r IH]; simpl; [constructor|].
  destruct (is_space c) eqn:E; [|discriminate].
  intros H. constructor; [exact E|now apply IH].
Qed.

Lemma lstrip_app_kept (a b : pystr) :
  lstrip a <> [] -> lstrip (a ++ b) = lstrip a ++ b.
Proof.
  induction a as [|c r IH]; simpl; [congruence|].
  destruct (is_space c); [exact IH|reflexivity].
Qed.

Lemma rstrip_blank_suffix (s ws : pystr) : blank ws -> rstrip (s ++ ws) = rstrip s.
Proof.
  intros H. unfold rstrip. rewrite rev_app_distr.
  rewrite lstrip_blank_prefix; [reflexivity|]. now apply Forall_rev.
Qed.

(** [strip] does not see whitespace added at either end. *)
Lemma py_strip_padded (before after s : pystr) :
  blank before -> blank after -> py_strip (before ++ s ++ after) = py_strip s.
Proof.
  intros Hb Ha. unfold py_strip. rewrite lstrip_blank_prefix by exact Hb.
  destruct (lstrip s) as [|c r] eqn:E.
  - apply lstrip_nil_blank in E.
    assert (Hall : blank (s ++ after)) by (apply Forall_app; now split).
    assert (Hnil : forall x, blank x -> lstrip x = []).
    { intros x Hx. rewrite <- (app_nil_r x). now rewrite lstrip_blank_prefix. }
    now rewrite (Hnil _ Hall).
  - rewrite lstrip_app_kept by (rewrite E; discriminate).
    rewrite E. now apply rstrip_blank_suffix.
Qed.

(** *** Names and files of the recordings directory *)

Lemma path_eqb_eq (p q : path) : path_eqb p q = true <-> p = q.
Proof.
  destruct p as [n1 s1], q as [n2 s2]. unfold path_eqb. simpl.
  rewrite andb_true_iff, Z.eqb_eq, N.eqb_eq. split.
  - now intros [-> ->].
  - now intros [= -> ->].
Qed.

Lemma path_eqb_refl (p : path) : path_eqb p p = true.
Proof. now apply path_eqb_eq. Qed.

Lemma path_eqb_other (p q : path) : q <> p -> path_eqb p q = false.
Proof.
  intros H. destruct (path_eqb p q) eqn:E; [|reflexivity].
  apply path_eqb_eq in E. congruence.
Qed.

Lemma find_without_self (f : path) (recs : list (path * audio)) :
  find (fun e => path_eqb (fst e) f)
       (filter (fun e => negb (path_eqb (fst e) f)) recs) = None.
Proof.
  induction recs as [|e recs IH]; simpl; [reflexivity|].
  destruct (path_eqb (fst e) f) eqn:E; simpl; [exact IH|]. now rewrite E.
Qed.

Lemma find_without_other (f q : path) (recs : list (path * audio)) :
  q <> f ->
  find (fun e => path_eqb (fst e) q)
       (filter (fun e => negb (path_eqb (fst e) f)) recs) =
  find (fun e => path_eqb (fst e) q) recs.
Proof.
  intros Hq. induction recs as [|e recs IH]; simpl; [reflexivity|].
  destruct (path_eqb (fst e) f) eqn:E; simpl.
  - apply path_eqb_eq in E. rewrite E, (path_eqb_other f q Hq). exact IH.
  - destruct (path_eqb (fst e) q); [reflexivity|exact IH].
Qed.

Lemma recording_at_same_files (q : path) (w w' : world) :
  recordings w' = recordings w -> recording_at q w' = recording_at q w.
Proof. unfold recording_at. now intros ->. Qed.

(** *** The corpus *)

Lemma load_sentences_from (rows : list (list pystr)) (acc : list pystr) :
  fold_left
    (fun sentences row =>
       match row with
       | [] => sentences
       | first :: _ => sentences ++ [first]
       end)
    rows acc =
  acc ++ flat_map (fun row => firstn 1 row) rows.
Proof.
  revert acc. induction rows as [|row rows IH]; intros acc; simpl.
  - now rewrite app_nil_r.
  - rewrite IH. destruct row as [|first rest]; simpl; [reflexivity|].
    now rewrite <- app_assoc.
Qed.

(** X11: [load_sentences] keeps the first column of every non-empty row,
    in the order of the file: blank rows add nothing, further columns are
    ignored, a row with an empty first column still counts as a sentence,
    and so there are at most as many sentences as rows. *)
Theorem load_sentences_first_column (rows rows' : list (list pystr)) :
  load_sentences (rows ++ rows') = load_sentences rows ++ load_sentences rows'
  /\ load_sentences ([] :: rows) = load_sentences rows
  /\ (forall first rest,
        load_sentences ((first :: rest) :: rows) = first :: load_sentences rows)
  /\ load_sentences rows =
     map (hd []) (filter (fun row => negb (Nat.eqb (length row) 0)) rows)
  /\ (length (load_sentences rows) <= length rows)%nat.
Proof.
  unfold load_sentences.
  split; [rewrite !load_sentences_from; apply flat_map_app|].
  split; [reflexivity|].
  split; [intros first rest; rewrite !load_sentences_from; reflexivity|].
  rewrite !load_sentences_from. cbn [app].
  split.
  - induction rows as [|row rows IH]; [reflexivity|].
    destruct row as [|first rest];
      cbn [flat_map firstn app filter map hd length Nat.eqb negb];
      [exact IH|]. f_equal. exact IH.
  - induction rows as [|row rows IH]; [simpl; lia|].
    cbn [flat_map]. rewrite length_app.
    destruct row as [|first rest]; simpl length in *; lia.
Qed.

(** ** The progress store and the session *)

Section Session.

Variable to_decimal : N -> option N.
Variable sentences : list pystr.
Variable now : Z -> timestamp.

(** What is asked of the runtime's digit table: it knows ASCII's digits. *)
Hypothesis to_decimal_ascii :
  forall c, is_digit c -> to_decimal c = Some (c - 48)%N.

Local Abbreviation total := (total_sentences sentences).

Lemma digits_acc_digit (a c : N) (r : pystr) :
  is_digit c ->
  digits_acc to_decimal a (c :: r) = digits_acc to_decimal (10 * a + (c - 48)) r.
Proof.
  intros Hc. simpl.
  destruct (N.eqb_spec c 95) as [E|_]; [unfold is_digit in Hc; lia|].
  now rewrite (to_decimal_ascii c Hc).
Qed.

Lemma py_digits_led (s : pystr) :
  digit_led s -> py_digits to_decimal s = digits_acc to_decimal 0 s.
Proof.
  destruct s as [|c r]; simpl digit_led; [tauto|intros Hc].
  rewrite digits_acc_digit by exact Hc.
  unfold py_digits. now rewrite (to_decimal_ascii c Hc).
Qed.

(** Reading back what [digits_fuel] wrote, given fuel for every digit. *)
Lemma digits_acc_fuel (fuel : nat) :
  forall n acc,
    (n < 2 ^ N.of_nat fuel)%N ->
    digits_acc to_decimal 0 (digits_fuel fuel n acc) = digits_acc to_decimal n acc.
Proof.
  induction fuel as [|k IH]; intros n acc Hn.
  - simpl in *. assert (n = 0%N) as -> by lia. reflexivity.
  - cbn [digits_fuel].
    pose proof (last_digit_char n) as Hd.
    assert (Hsplit : (10 * (n / 10) + n mod 10 = n)%N).
    { symmetry. apply N.div_mod. discriminate. }
    destruct (N.ltb_spec n 10) as [Hlt|Hge].
    + rewrite digits_acc_digit by exact Hd.
      f_equal. rewrite N.mod_small by exact Hlt. clear - Hlt. lia.
    + rewrite IH.
      * rewrite digits_acc_digit by exact Hd. f_equal.
        revert Hsplit. generalize (n / 10)%N (n mod 10)%N. clear. intros q r H. lia.
      * apply N.Div0.div_lt_upper_bound.
        rewrite Nat2N.inj_succ, N.pow_succ_r' in Hn.
        revert Hn. generalize (2 ^ N.of_nat k)%N. clear. intros p H. lia.
Qed.

Lemma py_digits_str_nat (n : N) : py_digits to_decimal (py_str_nat n) = Some n.
Proof.
  rewrite py_digits_led by apply py_str_nat_led.
  unfold py_str_nat. rewrite digits_acc_fuel; [reflexivity|].
  rewrite Nat2N.inj_succ, N2Nat.id.
  destruct n as [|p]; [reflexivity|].
  apply N.log2_spec. reflexivity.
Qed.

(** [int(str(z)) == z] *)
Lemma py_int_py_str (z : Z) : py_int to_decimal (py_str z) = inr z.
Proof.
  unfold py_int. rewrite py_strip_unspaced by apply py_str_unspaced.
  unfold py_str. destruct (Z.ltb_spec z 0) as [Hneg|Hpos].
  - cbn [N.eqb Pos.eqb fst snd]. rewrite py_digits_str_nat. f_equal. lia.
  - pose proof (py_str_nat_led (Z.to_N z)) as Hled.
    destruct (py_str_nat (Z.to_N z)) as [|c r] eqn:E; [contradiction|].
    simpl in Hled. unfold is_digit in Hled.
    destruct (N.eqb_spec c 43) as [?|_]; [lia|].
    destruct (N.eqb_spec c 45) as [?|_]; [lia|].
    cbn [fst snd]. rewrite <- E, py_digits_str_nat. f_equal. lia.
Qed.

(** [int] raises nothing but [ValueError]. *)
Lemma py_int_raises (s : pystr) (e : exn) :
  py_int to_decimal s = inl e -> e = ValueError.
Proof.
  unfold py_int. destruct (py_digits _ _); [discriminate|]. now intros [= <-].
Qed.

Lemma load_progress_checkpoint (w : world) :
  load_progress to_decimal w = (w, inr (checkpoint to_decimal w)).
Proof.
  unfold checkpoint, load_progress, try_except, lift, ret.
  destruct (progress_file w) as [content|]; [|reflexivity].
  destruct (py_int to_decimal (py_strip content)) as [e|n] eqn:E; [|reflexivity].
  now rewrite (py_int_raises _ _ E).
Qed.

Lemma checkpoint_saved (index : Z) (w : world) :
  checkpoint to_decimal (fst (save_progress index w)) = index.
Proof.
  unfold checkpoint, load_progress, save_progress, try_except, lift.
  cbn [fst progress_file].
  rewrite (py_strip_unspaced (py_str index)) by apply py_str_unspaced.
  now rewrite py_int_py_str.
Qed.

(** *** One pass of the inner loop *)

Lemma recording_appended (held : list chunk) (acc : list chunk) :
  fold_left (fun recording data => recording ++ [data]) held acc = acc ++ held.
Proof.
  revert acc. induction held as [|d held IH]; intros acc; simpl.
  - now rewrite app_nil_r.
  - rewrite IH, <- app_assoc. reflexivity.
Qed.

Lemma checkpoint_same_file (w w' : world) :
  progress_file w' = progress_file w ->
  checkpoint to_decimal w' = checkpoint to_decimal w.
Proof.
  unfold checkpoint, load_progress, try_except, lift, ret. intros ->.
  destruct (progress_file w) as [content|]; [|reflexivity].
  destruct (py_int to_decimal (py_strip content)) as [[]|n]; reflexivity.
Qed.

Ltac run_script :=
  cbv [attempt record_audio speech_to_text playsound save_progress wavio_write
       os_remove print bind ret raise lift try_except np_concatenate
       is_Exception];
  cbn [fst snd progress_file recordings stdout app].

(** The record key let go before the first chunk: [np.concatenate] is
    handed an empty list and raises. *)
Lemma record_audio_nothing_held (filename : path) (w : world) :
  record_audio filename [] w =
  ({| progress_file := progress_file w;
      recordings := recordings w;
      stdout := stdout w ++ [PressAndHold; RecordingStarted; RecordingStopped] |},
   inl ValueError).
Proof.
  run_script. cbn [fold_left]. now rewrite <- !app_assoc.
Qed.

Lemma record_audio_held (filename : path) (held : list chunk) (w : world) :
  held <> [] ->
  record_audio filename held w =
  ({| progress_file := progress_file w;
      recordings :=
        (filename, concat held)
          :: filter (fun e => negb (path_eqb (fst e) filename)) (recordings w);
      stdout := stdout w ++ [PressAndHold; RecordingStarted; RecordingStopped] |},
   inr filename).
Proof.
  intros Hne. run_script. rewrite recording_appended. cbn [app].
  destruct held as [|d held]; [congruence|].
  cbn [fst snd progress_file recordings stdout]. now rewrite <- !app_assoc.
Qed.

(** What one pass does to the checkpoint file, by the operator's choice. *)
Lemma attempt_checkpoint_file (i : Z) (s : pystr) (f : path) (t : take) (w : world) :
  let r := attempt i s f t w in
  match held t with
  | [] => snd r = inl ValueError /\ progress_file (fst r) = progress_file w
  | _ :: _ =>
      match decision_of t with
      | Advance => snd r = inr Break
                   /\ progress_file (fst r) = Some (py_str (i + 1))
      | Quit => snd r = inr Return
                /\ progress_file (fst r) = Some (py_str i)
      | _ => snd r = inr Continue
             /\ progress_file (fst r) = progress_file w
      end
  end.
Proof.
  destruct t as [hd hrd fails ty]. unfold decision_of, attempt.
  cbn [held heard typed playback_fails]. cbv zeta.
  destruct hd as [|d hd].
  - unfold bind. rewrite record_audio_nothing_held. split; reflexivity.
  - unfold bind. rewrite record_audio_held by discriminate.
    destruct hrd; run_script;
      repeat match goal with
             | |- context [str_eqb ?a ?b] => destruct (str_eqb a b)
             | |- context [os_path_exists ?p ?v] => destruct (os_path_exists p v)
             end;
      destruct fails; split; reflexivity.
Qed.

(** *** Between passes *)

Local Abbreviation ck := (checkpoint to_decimal).
Local Abbreviation enter' := (enter sentences now).
Local Abbreviation step' := (step sentences now).
Local Abbreviation start' := (start to_decimal sentences now).
Local Abbreviation main' := (main to_decimal sentences now).
Local Abbreviation coherent' := (coherent to_decimal sentences).

Lemma checkpoint_of_file (index : Z) (w : world) :
  progress_file w = Some (py_str index) -> ck w = index.
Proof.
  intros H. rewrite <- (checkpoint_saved index w).
  apply checkpoint_same_file. now rewrite H.
Qed.

Lemma enter_file (i : Z) (w : world) :
  progress_file (world_of (enter' i w)) = progress_file w.
Proof.
  unfold enter. destruct (i >=? total)%Z; [reflexivity|].
  destruct (py_index sentences i); reflexivity.
Qed.

Lemma enter_running (i j : Z) (s : pystr) (f : path) (w w' : world) :
  enter' i w = Running j s f w' ->
  j = i /\ (i < total)%Z /\ py_index sentences i = inr s
  /\ f = {| sentence_no := i + 1; stamp := now i |}.
Proof.
  unfold enter. destruct (Z.geb_spec i total) as [|Hlt]; [discriminate|].
  destruct (py_index sentences i) as [e|s0]; [discriminate|].
  intros [= <- <- <- _]. auto.
Qed.

Lemma enter_done (i : Z) (w : world) :
  (total <= i)%Z -> enter' i w = Halted Completed (fst (print AllRecorded w)).
Proof.
  intros H. unfold enter. destruct (Z.geb_spec i total); [reflexivity|lia].
Qed.

Lemma py_index_in_range {A : Type} (l : list A) (i : Z) :
  (0 <= i < Z.of_nat (length l))%Z ->
  exists x, py_index l i = inr x /\ nth_error l (Z.to_nat i) = Some x.
Proof.
  intros H. unfold py_index.
  destruct (Z.ltb_spec i 0) as [|_]; [lia|].
  destruct (Z.leb_spec 0 i) as [_|]; [|lia].
  destruct (Z.ltb_spec i (Z.of_nat (length l))) as [_|]; [|lia].
  cbn [andb].
  destruct (nth_error l (Z.to_nat i)) as [x|] eqn:E.
  - now exists x.
  - apply nth_error_None in E. lia.
Qed.

Lemma enter_pending (i : Z) (w : world) :
  (0 <= i < total)%Z ->
  exists s,
    nth_error sentences (Z.to_nat i) = Some s
    /\ enter' i w =
       Running i s {| sentence_no := i + 1; stamp := now i |}
         (fst (print (SentenceHeader (i + 1) total s) w)).
Proof.
  intros H. destruct (py_index_in_range sentences i H) as (s & Hs & Hn).
  exists s. split; [exact Hn|].
  unfold enter. destruct (Z.geb_spec i total) as [|_]; [lia|].
  now rewrite Hs.
Qed.

Lemma start_enter (w : world) : start' w = enter' (ck w) w.
Proof. unfold start. now rewrite load_progress_checkpoint. Qed.

Lemma enter_coherent (i : Z) (w : world) : ck w = i -> coherent' (enter' i w).
Proof.
  intros H. destruct (enter' i w) as [j s f w'|o w'] eqn:E; simpl; [|exact I].
  pose proof (enter_file i w) as Hf. rewrite E in Hf. simpl in Hf.
  apply enter_running in E. destruct E as (-> & Hlt & _).
  split; [|exact Hlt]. rewrite <- H. now apply checkpoint_same_file.
Qed.

Lemma start_coherent (w : world) : coherent' (start' w).
Proof. rewrite start_enter. now apply enter_coherent. Qed.

Lemma start_checkpoint (w : world) : ck (world_of (start' w)) = ck w.
Proof. rewrite start_enter. apply checkpoint_same_file, enter_file. Qed.

(** One transition: who may move the checkpoint, and by how much. *)
Lemma step_checkpoint (c : config) (e : event) :
  coherent' c ->
  coherent' (step' c e)
  /\ (ck (world_of (step' c e)) = ck (world_of c)
      \/ exists i s f w t,
           c = Running i s f w /\ e = Take t /\ held t <> []
           /\ decision_of t = Advance
           /\ ck (world_of (step' c e)) = (i + 1)%Z
           /\ ck w = i /\ (i < total)%Z)
  /\ (forall i s f w t,
        c = Running i s f w -> e = Take t -> held t <> [] ->
        decision_of t = Advance -> ck (world_of (step' c e)) = (i + 1)%Z).
Proof.
  intros Hc. destruct c as [i s f w|o w].
  2:{ simpl. split; [exact I|]. split; [now left|]. discriminate. }
  destruct Hc as [Hck Hlt]. destruct e as [t|].
  2:{ simpl. split; [exact I|]. split; [now left|]. discriminate. }
  pose proof (attempt_checkpoint_file i s f t w) as Ha. cbv zeta in Ha.
  unfold step. destruct (attempt i s f t w) as [w' r]. cbn [fst snd] in Ha.
  destruct (held t) as [|d hd] eqn:Eh.
  { destruct Ha as [-> Hf]. simpl. split; [exact I|]. split.
    - left. now apply checkpoint_same_file.
    - intros ? ? ? ? ? [= <- <- <- <-] [= <-] Hne. now rewrite Eh in Hne. }
  assert (Hstay : snd (w', r) = inr Continue /\ progress_file w' = progress_file w ->
                  coherent' (Running i s f w')
                  /\ ck w' = ck w).
  { intros [_ Hf]. pose proof (checkpoint_same_file w w' Hf) as E.
    split; [|exact E]. split; [now rewrite E|exact Hlt]. }
  destruct (decision_of t) eqn:Ed;
    try (destruct Ha as [-> Hf];
         destruct (Hstay (conj eq_refl Hf)) as [Hco Hsame];
         split; [exact Hco|]; split; [now left|];
         intros ? ? ? ? ? _ [= <-]; rewrite Ed; discriminate).
  - (* advance *)
    destruct Ha as [-> Hf]. apply checkpoint_of_file in Hf.
    assert (Hnext : ck (world_of (enter' (i + 1) w')) = (i + 1)%Z).
    { rewrite <- Hf at 2. apply checkpoint_same_file, enter_file. }
    split; [now apply enter_coherent|]. split.
    + right. exists i, s, f, w, t. rewrite Eh. repeat split; auto. discriminate.
    + intros ? ? ? ? ? [= <- <- <- <-] _ _ _. exact Hnext.
  - (* quit *)
    destruct Ha as [-> Hf]. apply checkpoint_of_file in Hf.
    simpl. split; [exact I|]. split; [left; congruence|].
    intros ? ? ? ? ? _ [= <-]. rewrite Ed. discriminate.
Qed.

Lemma run_coherent (events : list event) (c : config) :
  coherent' c -> coherent' (fold_left step' events c).
Proof.
  revert c. induction events as [|e events IH]; intros c Hc; simpl.
  - exact Hc.
  - apply IH. now apply step_checkpoint.
Qed.

Lemma main_coherent (events : list event) (w : world) : coherent' (main' events w).
Proof. apply run_coherent, start_coherent. Qed.

Lemma main_snoc (events : list event) (e : event) (w : world) :
  main' (events ++ [e]) w = step' (main' events w) e.
Proof. unfold main. now rewrite fold_left_app. Qed.

Lemma main_range (events : list event) (w : world) :
  (0 <= ck w <= total)%Z -> (0 <= ck (world_of (main' events w)) <= total)%Z.
Proof.
  intros H0. induction events as [|e events IH] using rev_ind.
  - unfold main. cbn [fold_left]. now rewrite start_checkpoint.
  - rewrite main_snoc.
    destruct (step_checkpoint (main' events w) e (main_coherent events w))
      as (_ & [Hsame|(i & s & f & w' & t & Hc & _ & _ & _ & Hnew & Hi & Hlt)] & _).
    + now rewrite Hsame.
    + rewrite Hc in IH. simpl in IH. rewrite Hnew. lia.
Qed.

(** *** What [int] refuses *)

Lemma digits_acc_rejects (c : N) (bound : nat) :
  to_decimal c = None -> c <> 95%N ->
  forall s a, (length s <= bound)%nat -> In c s -> digits_acc to_decimal a s = None.
Proof.
  intros Hc Hu. induction bound as [|k IH]; intros s a Hlen Hin.
  - destruct s; [contradiction|simpl in Hlen; lia].
  - destruct s as [|x r]; [contradiction|]. cbn [digits_acc].
    destruct (N.eqb_spec x 95) as [Ex|Ex].
    + destruct Hin as [->|Hin]; [contradiction|].
      destruct r as [|d r']; [reflexivity|].
      destruct (to_decimal d) as [v|] eqn:Ed; [|reflexivity].
      destruct Hin as [->|Hin]; [congruence|].
      apply IH; [simpl in Hlen; lia|exact Hin].
    + destruct (to_decimal x) as [v|] eqn:Ed; [|reflexivity].
      destruct Hin as [->|Hin]; [congruence|].
      apply IH; [simpl in Hlen; lia|exact Hin].
Qed.

Lemma py_digits_rejects (c : N) (s : pystr) :
  to_decimal c = None -> c <> 95%N -> In c s -> py_digits to_decimal s = None.
Proof.
  intros Hc Hu Hin. destruct s as [|x r]; [reflexivity|]. cbn [py_digits].
  destruct (to_decimal x) as [v|] eqn:Ed; [|reflexivity].
  destruct Hin as [->|Hin]; [congruence|].
  now apply (digits_acc_rejects c (length r)).
Qed.

Lemma py_int_rejects (c : N) (s : pystr) :
  non_numeric to_decimal c -> In c (py_strip s) ->
  py_int to_decimal s = inl ValueError.
Proof.
  intros (Hc & Hu & Hplus & Hminus) Hin. unfold py_int.
  assert (E : py_digits to_decimal
                (snd match py_strip s with
                     | [] => (false, py_strip s)
                     | x :: r =>
                         if (x =? 43)%N then (false, r)
                         else if (x =? 45)%N then (true, r)
                         else (false, py_strip s)
                     end) = None).
  { apply (py_digits_rejects c); [exact Hc|exact Hu|].
    destruct (py_strip s) as [|x r]; [contradiction|].
    destruct (N.eqb_spec x 43) as [->|_];
      [destruct Hin as [<-|Hin]; [congruence|exact Hin]|].
    destruct (N.eqb_spec x 45) as [->|_];
      [destruct Hin as [<-|Hin]; [congruence|exact Hin]|].
    exact Hin. }
  cbv zeta. now rewrite E.
Qed.

(** *** The progress store *)

(** C7: [load_progress] returns 0 when the checkpoint file is absent, and
    when it is there but [int] refuses what it holds, as it does whenever
    a character that is no digit, sign or underscore remains after
    stripping; in both cases the call returns normally and leaves the
    world as it found it, exactly as for a missing file. *)
Theorem load_progress_defaults_to_zero (w : world) :
  (progress_file w = None -> load_progress to_decimal w = (w, inr 0%Z))
  /\ (forall content,
        progress_file w = Some content ->
        py_int to_decimal (py_strip content) = inl ValueError ->
        load_progress to_decimal w = (w, inr 0%Z))
  /\ (forall content c,
        progress_file w = Some content ->
        In c (py_strip content) -> non_numeric to_decimal c ->
        load_progress to_decimal w = (w, inr 0%Z)).
Proof.
  assert (Hcorrupt : forall content,
             progress_file w = Some content ->
             py_int to_decimal (py_strip content) = inl ValueError ->
             load_progress to_decimal w = (w, inr 0%Z)).
  { intros content Hf He. unfold load_progress, try_except, lift.
    rewrite Hf, He. reflexivity. }
  split; [|split].
  - intros Hf. unfold load_progress. now rewrite Hf.
  - exact Hcorrupt.
  - intros content c Hf Hin Hc. apply (Hcorrupt content Hf).
    apply (py_int_rejects c); [exact Hc|]. now rewrite py_strip_idempotent.
Qed.

(** C8: [save_progress(n)] followed by [load_progress()] returns [n], for
    every integer [n] and so for every valid index from 0 up to and
    including the number of sentences. *)
Theorem save_then_load (index : Z) (w : world) :
  load_progress to_decimal (fst (save_progress index w)) =
  (fst (save_progress index w), inr index).
Proof.
  rewrite load_progress_checkpoint. now rewrite checkpoint_saved.
Qed.

(** *** The session *)

Lemma step_advance (i : Z) (s : pystr) (f : path) (w : world) (t : take) :
  held t <> [] -> decision_of t = Advance ->
  progress_file (fst (attempt i s f t w)) = Some (py_str (i + 1))
  /\ step' (Running i s f w) (Take t) = enter' (i + 1) (fst (attempt i s f t w)).
Proof.
  intros Hh Hd. pose proof (attempt_checkpoint_file i s f t w) as Ha.
  cbv zeta in Ha. unfold step.
  destruct (attempt i s f t w) as [w' r]. cbn [fst snd] in *.
  destruct (held t); [congruence|]. rewrite Hd in Ha.
  destruct Ha as [-> Hf]. auto.
Qed.

Lemma step_quit (i : Z) (s : pystr) (f : path) (w : world) (t : take) :
  held t <> [] -> decision_of t = Quit ->
  progress_file (fst (attempt i s f t w)) = Some (py_str i)
  /\ step' (Running i s f w) (Take t) = Halted Exited (fst (attempt i s f t w)).
Proof.
  intros Hh Hd. pose proof (attempt_checkpoint_file i s f t w) as Ha.
  cbv zeta in Ha. unfold step.
  destruct (attempt i s f t w) as [w' r]. cbn [fst snd] in *.
  destruct (held t); [congruence|]. rewrite Hd in Ha.
  destruct Ha as [-> Hf]. auto.
Qed.

(** Play, redo and an unknown choice leave the checkpoint file as it is. *)
Lemma step_file_untouched (c : config) (t : take) :
  decision_of t = Play \/ decision_of t = Redo \/ decision_of t = Invalid ->
  progress_file (world_of (step' c (Take t))) = progress_file (world_of c).
Proof.
  intros Hd. destruct c as [i s f w|o w]; [|reflexivity].
  pose proof (attempt_checkpoint_file i s f t w) as Ha.
  cbv zeta in Ha. unfold step.
  destruct (attempt i s f t w) as [w' r]. cbn [fst snd] in *.
  destruct (held t).
  - destruct Ha as [-> Hf]. exact Hf.
  - destruct Hd as [Hd|[Hd|Hd]]; rewrite Hd in Ha; destruct Ha as [-> Hf];
      exact Hf.
Qed.

(** C5: along a session the checkpoint stays between 0 and the number of
    sentences once it starts there; it never decreases; when it changes,
    the transition was the advance decision, which wrote
    [current_index + 1]; and play, redo and an invalid choice leave the
    checkpoint file untouched.  [c] is any configuration the session
    reaches and [c'] the one after the next event. *)
Theorem checkpoint_invariant (w0 : world) (events : list event) (e : event) :
  let c := main' events w0 in
  let c' := step' c e in
  ((0 <= ck w0 <= total)%Z ->
   (0 <= ck (world_of c) <= total)%Z /\ (0 <= ck (world_of c') <= total)%Z)
  /\ (ck (world_of c) <= ck (world_of c'))%Z
  /\ (ck (world_of c') <> ck (world_of c) ->
      exists i s f w t,
        c = Running i s f w /\ e = Take t /\ decision_of t = Advance
        /\ ck w = i /\ ck (world_of c') = (i + 1)%Z)
  /\ (forall i s f w t,
        c = Running i s f w -> e = Take t -> held t <> [] ->
        decision_of t = Advance ->
        progress_file (fst (attempt i s f t w)) = Some (py_str (i + 1))
        /\ ck (world_of c') = (i + 1)%Z)
  /\ (forall t,
        e = Take t ->
        decision_of t = Play \/ decision_of t = Redo \/ decision_of t = Invalid ->
        progress_file (world_of c') = progress_file (world_of c)).
Proof.
  intros c c'.
  destruct (step_checkpoint c e (main_coherent events w0)) as (_ & Hmove & Hadv).
  fold c' in Hmove, Hadv.
  split; [|split; [|split; [|split]]].
  - intros H0. split.
    + now apply main_range.
    + subst c c'. rewrite <- main_snoc. now apply main_range.
  - destruct Hmove as [->|(i & s & f & w & t & Hc & _ & _ & _ & -> & Hi & _)].
    + lia.
    + rewrite Hc. simpl. lia.
  - intros Hne.
    destruct Hmove as [E|(i & s & f & w & t & Hc & He & _ & Hd & Hnew & Hi & _)];
      [contradiction|].
    exists i, s, f, w, t. auto.
  - intros i s f w t Hc He Hh Hd. split.
    + now apply step_advance.
    + now apply (Hadv i s f w t).
  - intros t -> Hd. now apply step_file_untouched.
Qed.

(** C6: quitting writes [current_index] itself and ends the session.
    With at least two sentences and the checkpoint at 0: after one take
    accepted for sentence 1 the checkpoint reads 1; quitting from the take
    of sentence 2, or interrupting there, leaves it at 1; and the next
    session begins at index 1, the second sentence. *)
Theorem quit_keeps_current_index :
  (forall i s f w t,
      held t <> [] -> decision_of t = Quit ->
      exists w',
        step' (Running i s f w) (Take t) = Halted Exited w'
        /\ progress_file w' = Some (py_str i) /\ ck w' = i)
  /\ (forall w0 t1 t2,
        (2 <= length sentences)%nat -> ck w0 = 0%Z ->
        held t1 <> [] -> decision_of t1 = Advance ->
        held t2 <> [] -> decision_of t2 = Quit ->
        exists s2 f2 w1 w2,
          nth_error sentences 1 = Some s2
          /\ main' [Take t1] w0 = Running 1 s2 f2 w1 /\ ck w1 = 1%Z
          /\ main' [Take t1; Take t2] w0 = Halted Exited w2 /\ ck w2 = 1%Z
          /\ main' [Take t1; CtrlC] w0 = Halted (Crashed KeyboardInterrupt) w1
          /\ exists f3 w3, start' w2 = Running 1 s2 f3 w3).
Proof.
  assert (Hquit : forall i s f w t,
             held t <> [] -> decision_of t = Quit ->
             exists w',
               step' (Running i s f w) (Take t) = Halted Exited w'
               /\ progress_file w' = Some (py_str i) /\ ck w' = i).
  { intros i s f w t Hh Hd. destruct (step_quit i s f w t Hh Hd) as [Hf Hs].
    eexists. split; [exact Hs|]. split; [exact Hf|].
    now apply checkpoint_of_file. }
  split; [exact Hquit|].
  intros w0 t1 t2 Hlen H0 Hh1 Hd1 Hh2 Hd2.
  assert (Htotal : (2 <= total)%Z) by (unfold total_sentences; lia).
  destruct (enter_pending 0 w0) as (s1 & _ & E1); [lia|].
  destruct (step_advance 0 s1 {| sentence_no := 0 + 1; stamp := now 0 |}
              (fst (print (SentenceHeader (0 + 1) total s1) w0)) t1 Hh1 Hd1)
    as [Hf1 Hs1].
  set (wa := fst (attempt 0 s1 {| sentence_no := 0 + 1; stamp := now 0 |} t1
                    (fst (print (SentenceHeader (0 + 1) total s1) w0)))) in *.
  destruct (enter_pending 1 wa) as (s2 & Hn2 & E2); [lia|].
  assert (Hmain1 : main' [Take t1] w0 =
                   Running 1 s2 {| sentence_no := 1 + 1; stamp := now 1 |}
                     (fst (print (SentenceHeader (1 + 1) total s2) wa))).
  { unfold main. cbn [fold_left]. rewrite start_enter, H0, E1, Hs1. exact E2. }
  set (w1 := fst (print (SentenceHeader (1 + 1) total s2) wa)) in *.
  assert (Hck1 : ck w1 = 1%Z).
  { rewrite (checkpoint_same_file wa w1) by reflexivity.
    now apply checkpoint_of_file. }
  destruct (Hquit 1%Z s2 {| sentence_no := 1 + 1; stamp := now 1 |} w1 t2 Hh2 Hd2)
    as (w2 & Hs2 & _ & Hck2).
  exists s2, {| sentence_no := 1 + 1; stamp := now 1 |}, w1, w2.
  split; [exact Hn2|]. split; [exact Hmain1|]. split; [exact Hck1|].
  assert (Hsnoc : forall e, main' [Take t1; e] w0 = step' (main' [Take t1] w0) e).
  { intros e. exact (main_snoc [Take t1] e w0). }
  split; [now rewrite Hsnoc, Hmain1|]. split; [exact Hck2|].
  split; [now rewrite Hsnoc, Hmain1|].
  destruct (enter_pending 1 w2) as (s2' & Hn2' & E3); [lia|].
  rewrite Hn2 in Hn2'. injection Hn2' as <-.
  eexists _, _. rewrite start_enter, Hck2. exact E3.
Qed.

(** C9: when recognition fails, by unintelligible speech or by a request
    error, [speech_to_text] returns the empty string; the accuracy of an
    empty transcription is 0 whatever the reference; and the pass goes on
    to show that accuracy and the menu and ends by the operator's choice,
    not by an exception, so that a redo records the same sentence again. *)
Theorem recognition_failure_downgraded (failure : recognition) :
  failure = UnknownValueError \/ (exists detail, failure = RequestError detail) ->
  (forall w, snd (speech_to_text failure w) = inr [])
  /\ (forall reference, calculate_accuracy reference [] = 0)
  /\ (forall i s f t w,
        heard t = failure -> held t <> [] ->
        exists after,
          snd (attempt i s f t w) =
          inr (match decision_of t with
               | Advance => Break
               | Quit => Return
               | _ => Continue
               end)
          /\ stdout (fst (attempt i s f t w)) =
             stdout w ++ [PressAndHold; RecordingStarted; RecordingStopped]
               ++ failure_notice failure
               ++ [Transcribed []; Accuracy 0; Options] ++ after)
  /\ (forall i s f t w,
        heard t = failure -> held t <> [] -> decision_of t = Redo ->
        step' (Running i s f w) (Take t) = Running i s f (fst (attempt i s f t w))).
Proof.
  intros Hfail. split; [|split; [|split]].
  - intros w. destruct Hfail as [->|[detail ->]]; reflexivity.
  - intros reference. reflexivity.
  - intros i s f [hd hrd fails ty] w Hheard Hheld. cbn [heard held] in *. subst hrd.
    unfold decision_of, attempt. cbn [held heard typed playback_fails].
    unfold bind. rewrite record_audio_held by exact Hheld.
    destruct Hfail as [->|[detail ->]]; run_script; cbn [failure_notice];
      repeat match goal with
             | |- context [str_eqb ?a ?b] => destruct (str_eqb a b)
             | |- context [os_path_exists ?p ?v] => destruct (os_path_exists p v)
             end;
      destruct fails; eexists; (split; [reflexivity|]);
      cbn [stdout]; rewrite <- ?app_assoc; cbn [app]; reflexivity.
  - intros i s f t w _ Hheld Hd.
    pose proof (attempt_checkpoint_file i s f t w) as Ha. cbv zeta in Ha.
    unfold step. destruct (attempt i s f t w) as [w' r]. cbn [fst snd] in *.
    destruct (held t); [congruence|]. rewrite Hd in Ha. now destruct Ha as [-> _].
Qed.

(** C2: when the record key is let go before a chunk was read,
    [record_audio] raises [ValueError] out of [np.concatenate]; no file is
    written, the pass is abandoned before anything is transcribed or
    scored, and the session ends in the outermost handler. *)
Theorem record_audio_early_release (filename : path) (w : world) :
  let w' := {| progress_file := progress_file w;
               recordings := recordings w;
               stdout := stdout w ++ [PressAndHold; RecordingStarted; RecordingStopped] |} in
  record_audio filename [] w = (w', inl ValueError)
  /\ (forall i s t,
        held t = [] ->
        step' (Running i s filename w) (Take t) = Halted (Crashed ValueError) w')
  /\ (forall events w0 i s t,
        main' events w0 = Running i s filename w -> held t = [] ->
        script to_decimal sentences now (events ++ [Take t]) w0 =
        fst (print (ErrorOccurred ValueError) w')).
Proof.
  intros w'.
  assert (Hstep : forall i s t,
             held t = [] ->
             step' (Running i s filename w) (Take t) = Halted (Crashed ValueError) w').
  { intros i s t Hheld. unfold step, attempt. rewrite Hheld.
    unfold bind at 1. now rewrite record_audio_nothing_held. }
  split; [apply record_audio_nothing_held|]. split; [exact Hstep|].
  intros events w0 i s t Hmain Hheld.
  unfold script. now rewrite main_snoc, Hmain, (Hstep i s t Hheld).
Qed.

(** *** The recordings directory *)

Lemma enter_recordings (i : Z) (w : world) :
  recordings (world_of (enter' i w)) = recordings w.
Proof.
  unfold enter. destruct (i >=? total)%Z; [reflexivity|].
  destruct (py_index sentences i); reflexivity.
Qed.

(** X4: with at least one chunk read, [record_audio] returns the name it
    was given; the file under that name then holds the chunks joined in
    the order read, whatever was there before; every other file and the
    checkpoint are as they were. *)
Theorem record_audio_writes_take (filename : path) (chunks : list chunk) (w : world) :
  chunks <> [] ->
  snd (record_audio filename chunks w) = inr filename
  /\ recording_at filename (fst (record_audio filename chunks w)) = Some (concat chunks)
  /\ (forall other,
        other <> filename ->
        recording_at other (fst (record_audio filename chunks w)) =
        recording_at other w)
  /\ progress_file (fst (record_audio filename chunks w)) = progress_file w.
Proof.
  intros Hne. rewrite record_audio_held by exact Hne. cbn [fst snd].
  split; [reflexivity|]. split; [|split; [|reflexivity]].
  - unfold recording_at. cbn [recordings find fst]. now rewrite path_eqb_refl.
  - intros other Hother. unfold recording_at. cbn [recordings find fst].
    rewrite (path_eqb_other filename other Hother).
    now rewrite find_without_other.
Qed.

(** What one pass does to the recordings, by the operator's choice. *)
Lemma attempt_recordings (i : Z) (s : pystr) (f : path) (t : take) (w : world) :
  (forall q, q <> f ->
             recording_at q (fst (attempt i s f t w)) = recording_at q w)
  /\ match held t with
     | [] => recordings (fst (attempt i s f t w)) = recordings w
     | _ :: _ =>
         recording_at f (fst (attempt i s f t w)) =
         match decision_of t with
         | Redo => None
         | _ => Some (concat (held t))
         end
     end.
Proof.
  destruct t as [hd hrd fails ty]. unfold decision_of, attempt.
  cbn [held heard typed playback_fails].
  destruct hd as [|d hd].
  - unfold bind. rewrite record_audio_nothing_held. cbn [fst].
    split; [intros q _|]; reflexivity.
  - unfold bind. rewrite record_audio_held by discriminate.
    unfold os_path_exists.
    destruct hrd; run_script;
      repeat match goal with
             | |- context [str_eqb ?a ?b] => destruct (str_eqb a b)
             end;
      destruct fails; cbv beta iota zeta;
      cbn [fst snd progress_file recordings stdout existsb];
      rewrite ?path_eqb_refl; cbn [orb fst snd recordings];
      (split;
       [intros q Hq; unfold recording_at; cbn [recordings find filter fst];
        rewrite ?path_eqb_refl; cbn [negb find fst];
        rewrite ?(path_eqb_other f q Hq);
        rewrite ?(find_without_other f q _ Hq); reflexivity
       |unfold recording_at; cbn [recordings find filter fst];
        rewrite ?path_eqb_refl; cbn [negb find fst];
        rewrite ?path_eqb_refl, ?find_without_self; reflexivity]).
Qed.

Lemma step_recordings (i : Z) (s : pystr) (f : path) (w : world) (t : take) :
  recordings (world_of (step' (Running i s f w) (Take t))) =
  recordings (fst (attempt i s f t w)).
Proof.
  unfold step. destruct (attempt i s f t w) as [w' [e|[]]]; cbn [fst world_of];
    try reflexivity.
  apply enter_recordings.
Qed.

Lemma enter_named (i : Z) (w : world) : named_for_index (enter' i w).
Proof.
  destruct (enter' i w) as [j s f w'|o w'] eqn:E; simpl; [|exact I].
  apply enter_running in E. destruct E as (-> & _ & _ & ->). reflexivity.
Qed.

Lemma step_named (c : config) (e : event) :
  named_for_index c -> named_for_index (step' c e).
Proof.
  intros Hn. destruct c as [i s f w|o w]; [|exact I].
  destruct e as [t|]; [|exact I]. unfold step.
  destruct (attempt i s f t w) as [w' [e|[]]]; try exact I.
  - exact Hn.
  - apply enter_named.
Qed.

Lemma step_monotone (c : config) (e : event) :
  coherent' c -> (ck (world_of c) <= ck (world_of (step' c e)) <= ck (world_of c) + 1)%Z.
Proof.
  intros Hc.
  destruct (step_checkpoint c e Hc)
    as (_ & [->|(i & s & f & w & t & -> & _ & _ & _ & -> & Hi & _)] & _).
  - lia.
  - simpl. lia.
Qed.

(** One transition leaves the files of the sentences already behind. *)
Lemma step_keeps_earlier_files (c : config) (e : event) (q : path) :
  coherent' c -> named_for_index c ->
  (sentence_no q <= ck (world_of c))%Z ->
  recording_at q (world_of (step' c e)) = recording_at q (world_of c).
Proof.
  intros Hc Hn Hq. destruct c as [i s f w|o w]; [|reflexivity].
  destruct e as [t|]; [|reflexivity].
  destruct Hc as [Hck _]. simpl in Hn, Hq.
  rewrite (recording_at_same_files q (fst (attempt i s f t w)))
    by apply step_recordings.
  apply attempt_recordings. intros ->. lia.
Qed.

Lemma run_keeps_earlier_files (events : list event) :
  forall c q,
    coherent' c -> named_for_index c ->
    (sentence_no q <= ck (world_of c))%Z ->
    recording_at q (world_of (fold_left step' events c)) =
    recording_at q (world_of c).
Proof.
  induction events as [|e events IH]; intros c q Hc Hn Hq; [reflexivity|].
  cbn [fold_left]. rewrite IH.
  - now apply step_keeps_earlier_files.
  - now apply step_checkpoint.
  - now apply step_named.
  - pose proof (step_monotone c e Hc). lia.
Qed.

(** X5: after a pass that recorded something, the take is on disk under
    the sentence's file name on every choice but redo, which deletes it;
    and play, redo and an unknown choice all lead back to recording the
    same sentence into the same file. *)
Theorem take_file_after_pass (i : Z) (s : pystr) (f : path) (w : world) (t : take) :
  held t <> [] ->
  let w' := fst (attempt i s f t w) in
  match decision_of t with
  | Redo =>
      step' (Running i s f w) (Take t) = Running i s f w'
      /\ recording_at f w' = None
  | Play | Invalid =>
      step' (Running i s f w) (Take t) = Running i s f w'
      /\ recording_at f w' = Some (concat (held t))
  | Advance | Quit =>
      recording_at f (world_of (step' (Running i s f w) (Take t))) =
      Some (concat (held t))
  end.
Proof.
  intros Hh w'.
  pose proof (attempt_checkpoint_file i s f t w) as Ha. cbv zeta in Ha.
  pose proof (proj2 (attempt_recordings i s f t w)) as Hr.
  pose proof (step_recordings i s f w t) as Hs.
  fold w' in Ha, Hr, Hs.
  assert (Hstep : snd (attempt i s f t w) = inr Continue ->
                  step' (Running i s f w) (Take t) = Running i s f w').
  { unfold step, w'. destruct (attempt i s f t w) as [w1 r]. cbn [fst snd].
    now intros ->. }
  destruct (held t) as [|d hd]; [congruence|].
  destruct (decision_of t); destruct Ha as [Hsig _];
    try (split; [now apply Hstep|exact Hr]);
    rewrite (recording_at_same_files f w') by exact Hs; exact Hr.
Qed.

(** X6: a session never touches the recordings of the sentences before
    its starting checkpoint: whatever the events, a file whose sentence
    number is at most the checkpoint read at start is afterwards what it
    was. *)
Theorem session_keeps_earlier_takes (w0 : world) (events : list event) (q : path) :
  (sentence_no q <= ck w0)%Z ->
  recording_at q (world_of (main' events w0)) = recording_at q w0.
Proof.
  intros Hq. unfold main.
  rewrite run_keeps_earlier_files.
  - rewrite start_enter. apply recording_at_same_files, enter_recordings.
  - apply start_coherent.
  - rewrite start_enter. apply enter_named.
  - now rewrite start_checkpoint.
Qed.

Lemma halted_stays (events : list event) (o : outcome) (w : world) :
  fold_left step' events (Halted o w) = Halted o w.
Proof. induction events as [|e events IH]; [reflexivity|exact IH]. Qed.

(** Accepting take after take from a sentence in hand to the end. *)
Lemma run_accepted (takes : list take) :
  forall i s w,
    ck w = i -> (0 <= i < total)%Z ->
    Forall accepted takes ->
    Z.of_nat (length takes) = (total - i)%Z ->
    exists w',
      fold_left step' (map Take takes)
        (Running i s {| sentence_no := i + 1; stamp := now i |} w) =
      Halted Completed w'
      /\ ck w' = total
      /\ forall k t,
           nth_error takes k = Some t ->
           recording_at {| sentence_no := i + Z.of_nat k + 1;
                           stamp := now (i + Z.of_nat k) |} w' =
           Some (concat (held t)).
Proof.
  induction takes as [|t takes IH]; intros i s w Hck Hi Hall Hlen.
  { simpl in Hlen. lia. }
  inversion Hall as [|t0 l0 [Hheld Hdec] Hrest]; subst t0 l0.
  set (f := {| sentence_no := i + 1; stamp := now i |}).
  destruct (step_advance i s f w t Hheld Hdec) as [Hfile Hstep].
  pose proof (proj2 (attempt_recordings i s f t w)) as Hrec.
  set (w1 := fst (attempt i s f t w)) in *.
  assert (Hck1 : ck w1 = (i + 1)%Z) by now apply checkpoint_of_file.
  assert (Hrec1 : recording_at f w1 = Some (concat (held t))).
  { destruct (held t); [congruence|]. now rewrite Hdec in Hrec. }
  cbn [map fold_left]. rewrite Hstep.
  destruct (Z.eq_dec (i + 1) total) as [Hend|Hmore].
  - assert (takes = []) as -> by (destruct takes; [reflexivity|simpl in Hlen; lia]).
    rewrite enter_done by lia. cbn [map fold_left].
    eexists. split; [reflexivity|]. split.
    + rewrite <- Hend, <- Hck1. now apply checkpoint_same_file.
    + intros k t' Hk. destruct k as [|k]; [|destruct k; discriminate].
      injection Hk as <-. cbn [Z.of_nat]. rewrite !Z.add_0_r.
      rewrite (recording_at_same_files f w1) by reflexivity. exact Hrec1.
  - destruct (enter_pending (i + 1) w1) as (s' & _ & Hent); [lia|].
    rewrite Hent.
    set (w2 := fst (print (SentenceHeader (i + 1 + 1) total s') w1)) in *.
    assert (Hck2 : ck w2 = (i + 1)%Z).
    { rewrite <- Hck1. now apply checkpoint_same_file. }
    destruct (IH (i + 1)%Z s' w2 Hck2) as (w' & Hrun & Hdone & Hfiles);
      [lia|exact Hrest|simpl length in Hlen; lia|].
    exists w'. split; [exact Hrun|]. split; [exact Hdone|].
    intros k t' Hk. destruct k as [|k].
    + injection Hk as <-. cbn [Z.of_nat]. rewrite !Z.add_0_r. fold f.
      change w' with (world_of (Halted Completed w')). rewrite <- Hrun.
      rewrite run_keeps_earlier_files.
      * cbn [world_of]. rewrite (recording_at_same_files f w1) by reflexivity.
        exact Hrec1.
      * split; [exact Hck2|lia].
      * reflexivity.
      * cbn [world_of]. rewrite Hck2. simpl. lia.
    + cbn [nth_error] in Hk. specialize (Hfiles k t' Hk).
      replace (i + Z.of_nat (S k))%Z with (i + 1 + Z.of_nat k)%Z by lia.
      exact Hfiles.
Qed.

(** X7: from a checkpoint within range, as many accepted takes as there
    are sentences left complete the corpus: [main] ends by reporting
    completion, the checkpoint reads the number of sentences, and the
    take accepted for each sentence is on disk under that sentence's
    number. *)
Theorem accepting_every_sentence_completes (w0 : world) (takes : list take) :
  (0 <= ck w0 <= total)%Z ->
  Forall accepted takes ->
  Z.of_nat (length takes) = (total - ck w0)%Z ->
  exists w',
    main' (map Take takes) w0 = Halted Completed w'
    /\ ck w' = total
    /\ forall k t,
         nth_error takes k = Some t ->
         recording_at {| sentence_no := ck w0 + Z.of_nat k + 1;
                         stamp := now (ck w0 + Z.of_nat k) |} w' =
         Some (concat (held t)).
Proof.
  intros Hrange Hall Hlen. unfold main. rewrite start_enter.
  destruct (Z.eq_dec (ck w0) total) as [Hend|Hmore].
  - assert (takes = []) as -> by (destruct takes; [reflexivity|simpl in Hlen; lia]).
    rewrite enter_done by lia. cbn [map fold_left].
    eexists. split; [reflexivity|]. split.
    + rewrite <- Hend. now apply checkpoint_same_file.
    + intros k t Hk. destruct k; discriminate.
  - destruct (enter_pending (ck w0) w0) as (s & _ & Hent); [lia|].
    rewrite Hent. apply run_accepted; try assumption; [|lia].
    now apply checkpoint_same_file.
Qed.

(** X8: with the checkpoint at or beyond the number of sentences, [main]
    reports completion and returns at once: whatever the operator does
    next, nothing is recorded and the checkpoint file is not written. *)
Theorem finished_corpus_is_left_alone (w : world) (events : list event) :
  (total <= ck w)%Z ->
  main' events w =
  Halted Completed
    {| progress_file := progress_file w;
       recordings := recordings w;
       stdout := stdout w ++ [AllRecorded] |}.
Proof.
  intros H. unfold main. rewrite start_enter, enter_done by exact H.
  apply halted_stays.
Qed.

Lemma py_index_below {A : Type} (l : list A) (i : Z) :
  (i < - Z.of_nat (length l))%Z -> py_index l i = inl IndexError.
Proof.
  intros H. unfold py_index.
  destruct (Z.ltb_spec i 0) as [_|]; [|lia].
  destruct (Z.leb_spec 0 (Z.of_nat (length l) + i)) as [|_]; [lia|reflexivity].
Qed.

Lemma py_index_from_end {A : Type} (l : list A) (i : Z) :
  (- Z.of_nat (length l) <= i < 0)%Z ->
  exists x,
    py_index l i = inr x
    /\ nth_error l (Z.to_nat (Z.of_nat (length l) + i)) = Some x.
Proof.
  intros H. unfold py_index.
  destruct (Z.ltb_spec i 0) as [_|]; [|lia].
  destruct (Z.leb_spec 0 (Z.of_nat (length l) + i)) as [_|]; [|lia].
  destruct (Z.ltb_spec (Z.of_nat (length l) + i) (Z.of_nat (length l))) as [_|];
    [|lia].
  cbn [andb].
  destruct (nth_error l (Z.to_nat (Z.of_nat (length l) + i))) as [x|] eqn:E.
  - now exists x.
  - apply nth_error_None in E. lia.
Qed.

(** X9: a negative checkpoint is not refused.  Down to minus the number
    of sentences it counts from the end of the corpus: the session opens
    on that sentence, under a file number of zero or less.  Below that,
    indexing raises [IndexError] before anything is recorded or saved and
    the script ends in its outermost handler. *)
Theorem negative_checkpoint (w : world) :
  ((- total <= ck w < 0)%Z ->
   exists s,
     nth_error sentences (Z.to_nat (total + ck w)) = Some s
     /\ start' w =
        Running (ck w) s {| sentence_no := ck w + 1; stamp := now (ck w) |}
          (fst (print (SentenceHeader (ck w + 1) total s) w)))
  /\ ((ck w < - total)%Z ->
      forall events,
        main' events w = Halted (Crashed IndexError) w
        /\ script to_decimal sentences now events w =
           fst (print (ErrorOccurred IndexError) w)).
Proof.
  split.
  - intros H. destruct (py_index_from_end sentences (ck w) H) as (s & Hs & Hn).
    exists s. split; [exact Hn|]. rewrite start_enter. unfold enter.
    destruct (Z.geb_spec (ck w) total) as [Hge|_];
      [unfold total_sentences in *; lia|].
    now rewrite Hs.
  - intros H events.
    assert (Hmain : main' events w = Halted (Crashed IndexError) w).
    { unfold main. rewrite start_enter. unfold enter.
      destruct (Z.geb_spec (ck w) total) as [Hge|_];
        [unfold total_sentences in *; lia|].
      rewrite py_index_below by exact H. apply halted_stays. }
    split; [exact Hmain|]. unfold script. now rewrite Hmain.
Qed.

(** X10: no event moves the checkpoint by more than one sentence, so a
    session of [n] events leaves it between where it started and [n]
    further: no sentence is ever skipped. *)
Theorem one_sentence_per_event (w0 : world) (events : list event) :
  (ck w0 <= ck (world_of (main' events w0)) <= ck w0 + Z.of_nat (length events))%Z.
Proof.
  induction events as [|e events IH] using rev_ind.
  - unfold main. cbn [fold_left length]. rewrite start_checkpoint. simpl. lia.
  - rewrite main_snoc, length_app. cbn [length].
    pose proof (step_monotone (main' events w0) e (main_coherent events w0)). lia.
Qed.

(** X12: whitespace around the number in the checkpoint file, such as a
    final newline, does not matter to [load_progress]. *)
Theorem load_progress_ignores_padding (w : world) (before after : pystr) (n : Z) :
  blank before -> blank after ->
  progress_file w = Some (before ++ py_str n ++ after) ->
  load_progress to_decimal w = (w, inr n).
Proof.
  intros Hb Ha Hf. unfold load_progress, try_except, lift. rewrite Hf.
  rewrite py_strip_padded by assumption.
  rewrite (py_strip_unspaced (py_str n)) by apply py_str_unspaced.
  now rewrite py_int_py_str.
Qed.

(** X13: whitespace typed around the choice does not change what a pass
    does. *)
Theorem choice_ignores_padding
  (i : Z) (s : pystr) (f : path) (t : take) (before after : pystr) (w : world) :
  blank before -> blank after ->
  attempt i s f (padded before after t) w = attempt i s f t w
  /\ decision_of (padded before after t) = decision_of t.
Proof.
  intros Hb Ha. unfold attempt, decision_of, padded.
  cbn [held heard playback_fails typed].
  rewrite py_strip_padded by assumption. split; reflexivity.
Qed.

(** X14: a playback that fails is reported and nothing more: the pass
    ends as after a playback that worked, back at recording the same
    sentence, with one more line on the terminal and the same files. *)
Theorem playback_failure_is_reported
  (i : Z) (s : pystr) (f : path) (w : world)
  (chunks : list chunk) (answer : recognition) (key : pystr) :
  chunks <> [] -> py_strip key = [49%N] ->
  let played :=
    attempt i s f
      {| held := chunks; heard := answer; playback_fails := false; typed := key |} w in
  let failed :=
    attempt i s f
      {| held := chunks; heard := answer; playback_fails := true; typed := key |} w in
  snd played = inr Continue
  /\ failed = (fst (print (PlayError PlaybackError) (fst played)), inr Continue).
Proof.
  intros Hne Hkey played failed. subst played failed. unfold attempt.
  cbn [held heard typed playback_fails]. rewrite Hkey. cbn [str_eqb N.eqb Pos.eqb andb].
  unfold bind. rewrite record_audio_held by exact Hne.
  destruct answer; run_script; split; reflexivity.
Qed.

End Session.

(** ** The properties at work on the sample data *)

Lemma ascii_decimal_digits (c : N) :
  is_digit c -> ascii_decimal c = Some (c - 48)%N.
Proof.
  unfold is_digit, ascii_decimal. intros H.
  destruct (N.leb_spec 48 c); [|lia]. destruct (N.leb_spec c 57); [|lia].
  reflexivity.
Qed.

(** The test vector: three of six characters differ. *)
Example accuracy_of_test_vector :
  Levenshtein.distance annyeonghaseyo annyeonghasimnikka = 3%nat
  /\ calculate_accuracy annyeonghaseyo annyeonghasimnikka == 50.
Proof. split; [reflexivity|]. vm_compute. reflexivity. Qed.

(** Redo, then three times advance, over three sentences: the session
    completes with the checkpoint at 3 and one recording for each. *)
Example session_of_three :
  let c := main ascii_decimal corpus3 clock
             [Take (take_of annyeonghaseyo 50); Take (take_of annyeonghaseyo 51);
              Take (take_of annyeonghaseyo 51); Take (take_of annyeonghaseyo 51)]
             fresh_world in
  (exists w, c = Halted Completed w)
  /\ checkpoint ascii_decimal (world_of c) = 3%Z
  /\ map (fun e => sentence_no (fst e)) (recordings (world_of c)) = [3; 2; 1]%Z.
Proof.
  vm_compute. split; [eexists; reflexivity|]. split; reflexivity.
Qed.

Lemma calculate_accuracy_formula_and_range_witness :
  exists d,
    Levenshtein.edit_distance annyeonghaseyo annyeonghasimnikka d
    /\ calculate_accuracy annyeonghaseyo annyeonghasimnikka =
       accuracy_formula d (Nat.max (length annyeonghaseyo)
                                   (length annyeonghasimnikka)).
Proof.
  apply (proj1 (calculate_accuracy_formula_and_range
                  annyeonghaseyo annyeonghasimnikka)).
  discriminate.
Defined.

Lemma calculate_accuracy_identity_witness :
  calculate_accuracy annyeonghaseyo annyeonghaseyo == 100.
Proof.
  apply (proj1 calculate_accuracy_identity). discriminate.
Defined.

(** A checkpoint file left at 7 over a corpus of three sentences: the
    session reports completion at once and the checkpoint stays at 7. *)
Lemma stale_checkpoint_out_of_range :
  main ascii_decimal corpus3 clock [] stale_world =
  Halted Completed (fst (print AllRecorded stale_world))
  /\ checkpoint ascii_decimal
       (world_of (main ascii_decimal corpus3 clock [] stale_world)) = 7%Z
  /\ total_sentences corpus3 = 3%Z
  /\ ~ (0 <= checkpoint ascii_decimal
               (world_of (main ascii_decimal corpus3 clock [] stale_world))
          <= total_sentences corpus3)%Z.
Proof.
  split; [reflexivity|]. split; [reflexivity|]. split; [reflexivity|].
  change (~ (0 <= 7 <= 3)%Z). lia.
Qed.

Lemma checkpoint_invariant_witness :
  (0 <= checkpoint ascii_decimal
          (world_of (main ascii_decimal corpus3 clock
                       [Take (take_of annyeonghaseyo 51)] fresh_world))
     <= total_sentences corpus3)%Z
  /\ (0 <= checkpoint ascii_decimal
             (world_of (step corpus3 clock
                          (main ascii_decimal corpus3 clock
                             [Take (take_of annyeonghaseyo 51)] fresh_world)
                          (Take (take_of annyeonghasimnikka 51))))
        <= total_sentences corpus3)%Z.
Proof.
  apply (proj1 (checkpoint_invariant ascii_decimal corpus3 clock
                  ascii_decimal_digits fresh_world
                  [Take (take_of annyeonghaseyo 51)]
                  (Take (take_of annyeonghasimnikka 51)))).
  vm_compute. split; discriminate.
Defined.

Lemma quit_keeps_current_index_witness :
  exists s2 f2 w1 w2,
    nth_error corpus3 1 = Some s2
    /\ main ascii_decimal corpus3 clock
         [Take (take_of annyeonghaseyo 51)] fresh_world = Running 1 s2 f2 w1
    /\ checkpoint ascii_decimal w1 = 1%Z
    /\ main ascii_decimal corpus3 clock
         [Take (take_of annyeonghaseyo 51); Take (take_of [] 52)] fresh_world =
       Halted Exited w2
    /\ checkpoint ascii_decimal w2 = 1%Z
    /\ main ascii_decimal corpus3 clock
         [Take (take_of annyeonghaseyo 51); CtrlC] fresh_world =
       Halted (Crashed KeyboardInterrupt) w1
    /\ exists f3 w3, start ascii_decimal corpus3 clock w2 = Running 1 s2 f3 w3.
Proof.
  apply (proj2 (quit_keeps_current_index ascii_decimal corpus3 clock
                  ascii_decimal_digits)).
  - simpl. lia.
  - reflexivity.
  - discriminate.
  - reflexivity.
  - discriminate.
  - reflexivity.
Defined.

Lemma load_progress_defaults_to_zero_witness :
  load_progress ascii_decimal fresh_world = (fresh_world, inr 0%Z)
  /\ load_progress ascii_decimal corrupt_world = (corrupt_world, inr 0%Z).
Proof.
  split.
  - apply (proj1 (load_progress_defaults_to_zero ascii_decimal fresh_world)).
    reflexivity.
  - apply (proj2 (proj2 (load_progress_defaults_to_zero ascii_decimal corrupt_world))
             [97; 98; 99]%N 97%N).
    + reflexivity.
    + vm_compute. left. reflexivity.
    + vm_compute. repeat split; discriminate.
Defined.

Lemma save_then_load_witness :
  load_progress ascii_decimal
    (fst (save_progress (total_sentences corpus3) fresh_world)) =
  (fst (save_progress (total_sentences corpus3) fresh_world),
   inr (total_sentences corpus3)).
Proof.
  apply (save_then_load ascii_decimal ascii_decimal_digits).
Defined.

Lemma recognition_failure_downgraded_witness :
  snd (speech_to_text UnknownValueError fresh_world) = inr []
  /\ step corpus3 clock
       (Running 0 annyeonghaseyo {| sentence_no := 1; stamp := clock 0 |} fresh_world)
       (Take mumble) =
     Running 0 annyeonghaseyo {| sentence_no := 1; stamp := clock 0 |}
       (fst (attempt 0 annyeonghaseyo {| sentence_no := 1; stamp := clock 0 |}
               mumble fresh_world)).
Proof.
  assert (H : UnknownValueError = UnknownValueError
              \/ (exists detail, UnknownValueError = RequestError detail))
    by (left; reflexivity).
  split.
  - apply (proj1 (recognition_failure_downgraded corpus3 clock UnknownValueError H)).
  - apply (proj2 (proj2 (proj2
             (recognition_failure_downgraded corpus3 clock UnknownValueError H)))).
    + reflexivity.
    + discriminate.
    + reflexivity.
Defined.

Lemma record_audio_early_release_witness :
  step corpus3 clock
    (Running 0 annyeonghaseyo {| sentence_no := 1; stamp := clock 0 |} fresh_world)
    (Take tap) =
  Halted (Crashed ValueError)
    {| progress_file := None;
       recordings := [];
       stdout := [PressAndHold; RecordingStarted; RecordingStopped] |}.
Proof.
  apply (proj1 (proj2 (record_audio_early_release ascii_decimal corpus3 clock
                         {| sentence_no := 1; stamp := clock 0 |} fresh_world))).
  reflexivity.
Defined.

(** ** The further properties at work on the sample data *)

Lemma full_marks_iff_identical_witness :
  calculate_accuracy annyeonghaseyo annyeonghasimnikka == 100
  <-> annyeonghaseyo = annyeonghasimnikka.
Proof.
  apply (full_marks_iff_identical annyeonghaseyo annyeonghasimnikka).
  discriminate.
Defined.


Lemma record_audio_writes_take_witness :
  snd (record_audio {| sentence_no := 1; stamp := 5%N |} [[7; 8]; [9]]%Z
         resumed_world) = inr {| sentence_no := 1; stamp := 5%N |}
  /\ recording_at {| sentence_no := 1; stamp := 5%N |}
       (fst (record_audio {| sentence_no := 1; stamp := 5%N |} [[7; 8]; [9]]%Z
               resumed_world)) = Some (concat [[7; 8]; [9]]%Z).
Proof.
  destruct (record_audio_writes_take {| sentence_no := 1; stamp := 5%N |}
              [[7; 8]; [9]]%Z resumed_world) as (H1 & H2 & _).
  - discriminate.
  - split; [exact H1|exact H2].
Defined.

Lemma take_file_after_pass_witness :
  step corpus3 clock
    (Running 0 annyeonghaseyo {| sentence_no := 1; stamp := clock 0 |} fresh_world)
    (Take mumble) =
  Running 0 annyeonghaseyo {| sentence_no := 1; stamp := clock 0 |}
    (fst (attempt 0 annyeonghaseyo {| sentence_no := 1; stamp := clock 0 |}
            mumble fresh_world))
  /\ recording_at {| sentence_no := 1; stamp := clock 0 |}
       (fst (attempt 0 annyeonghaseyo {| sentence_no := 1; stamp := clock 0 |}
               mumble fresh_world)) = None.
Proof.
  apply (take_file_after_pass corpus3 clock 0 annyeonghaseyo
           {| sentence_no := 1; stamp := clock 0 |} fresh_world mumble).
  discriminate.
Defined.

Lemma session_keeps_earlier_takes_witness :
  recording_at {| sentence_no := 1; stamp := 5%N |}
    (world_of (main ascii_decimal corpus3 clock
                 [Take mumble; Take (take_of annyeonghasimnikka 51)]
                 resumed_world)) =
  recording_at {| sentence_no := 1; stamp := 5%N |} resumed_world.
Proof.
  apply (session_keeps_earlier_takes ascii_decimal corpus3 clock
           ascii_decimal_digits).
  vm_compute. intros H. discriminate H.
Defined.

Lemma accepting_every_sentence_completes_witness :
  exists w',
    main ascii_decimal corpus3 clock
      (map Take [take_of annyeonghaseyo 51; take_of annyeonghasimnikka 51;
                 take_of [] 51])
      fresh_world = Halted Completed w'
    /\ checkpoint ascii_decimal w' = total_sentences corpus3
    /\ forall k t,
         nth_error [take_of annyeonghaseyo 51; take_of annyeonghasimnikka 51;
                    take_of [] 51] k = Some t ->
         recording_at
           {| sentence_no := checkpoint ascii_decimal fresh_world + Z.of_nat k + 1;
              stamp := clock (checkpoint ascii_decimal fresh_world + Z.of_nat k) |}
           w' = Some (concat (held t)).
Proof.
  apply (accepting_every_sentence_completes ascii_decimal corpus3 clock
           ascii_decimal_digits).
  - vm_compute. split; intros H; discriminate H.
  - repeat constructor; discriminate.
  - reflexivity.
Defined.

Lemma finished_corpus_is_left_alone_witness :
  main ascii_decimal corpus3 clock [Take (take_of annyeonghaseyo 51)] stale_world =
  Halted Completed
    {| progress_file := progress_file stale_world;
       recordings := recordings stale_world;
       stdout := stdout stale_world ++ [AllRecorded] |}.
Proof.
  apply (finished_corpus_is_left_alone ascii_decimal corpus3 clock).
  vm_compute. intros H. discriminate H.
Defined.

Lemma negative_checkpoint_witness :
  (exists s,
      nth_error corpus3
        (Z.to_nat (total_sentences corpus3 + checkpoint ascii_decimal wrapping_world)) =
      Some s
      /\ start ascii_decimal corpus3 clock wrapping_world =
         Running (checkpoint ascii_decimal wrapping_world) s
           {| sentence_no := checkpoint ascii_decimal wrapping_world + 1;
              stamp := clock (checkpoint ascii_decimal wrapping_world) |}
           (fst (print (SentenceHeader (checkpoint ascii_decimal wrapping_world + 1)
                          (total_sentences corpus3) s) wrapping_world)))
  /\ main ascii_decimal corpus3 clock [Take mumble] lost_world =
     Halted (Crashed IndexError) lost_world.
Proof.
  split.
  - apply (proj1 (negative_checkpoint ascii_decimal corpus3 clock wrapping_world)).
    vm_compute. split; [intros H; discriminate H|reflexivity].
  - assert (H : (checkpoint ascii_decimal lost_world < - total_sentences corpus3)%Z)
      by (vm_compute; reflexivity).
    exact (proj1 (proj2 (negative_checkpoint ascii_decimal corpus3 clock lost_world)
                    H [Take mumble])).
Defined.

Lemma one_sentence_per_event_witness :
  (checkpoint ascii_decimal fresh_world
   <= checkpoint ascii_decimal
        (world_of (main ascii_decimal corpus3 clock
                     [Take mumble; Take (take_of annyeonghaseyo 51)] fresh_world))
   <= checkpoint ascii_decimal fresh_world
      + Z.of_nat (length [Take mumble; Take (take_of annyeonghaseyo 51)]))%Z.
Proof.
  apply (one_sentence_per_event ascii_decimal corpus3 clock ascii_decimal_digits).
Defined.

Lemma load_progress_ignores_padding_witness :
  load_progress ascii_decimal padded_world = (padded_world, inr 2%Z).
Proof.
  apply (load_progress_ignores_padding ascii_decimal ascii_decimal_digits
           padded_world [32%N] [10%N] 2%Z).
  - repeat constructor.
  - repeat constructor.
  - reflexivity.
Defined.

Lemma choice_ignores_padding_witness :
  attempt 0 annyeonghaseyo {| sentence_no := 1; stamp := clock 0 |}
    (padded [32%N] [13; 10]%N mumble) fresh_world =
  attempt 0 annyeonghaseyo {| sentence_no := 1; stamp := clock 0 |}
    mumble fresh_world
  /\ decision_of (padded [32%N] [13; 10]%N mumble) = decision_of mumble.
Proof.
  apply choice_ignores_padding; repeat constructor.
Defined.

Lemma playback_failure_is_reported_witness :
  snd (attempt 0 annyeonghaseyo {| sentence_no := 1; stamp := clock 0 |}
         {| held := [[1; 2]%Z]; heard := Recognized annyeonghaseyo;
            playback_fails := false; typed := [49; 10]%N |} fresh_world) =
  inr Continue
  /\ attempt 0 annyeonghaseyo {| sentence_no := 1; stamp := clock 0 |}
       {| held := [[1; 2]%Z]; heard := Recognized annyeonghaseyo;
          playback_fails := true; typed := [49; 10]%N |} fresh_world =
     (fst (print (PlayError PlaybackError)
             (fst (attempt 0 annyeonghaseyo {| sentence_no := 1; stamp := clock 0 |}
                     {| held := [[1; 2]%Z]; heard := Recognized annyeonghaseyo;
                        playback_fails := false; typed := [49; 10]%N |}
                     fresh_world))),
      inr Continue).
Proof.
  apply (playback_failure_is_reported 0 annyeonghaseyo
           {| sentence_no := 1; stamp := clock 0 |} fresh_world
           [[1; 2]%Z] (Recognized annyeonghaseyo) [49; 10]%N).
  - discriminate.
  - reflexivity.
Defined.
